(** * HEIC to WebP converter: batch orchestration

    A shallow embedding of [src/main.cpp]: argument parsing, file
    discovery, output path resolution, the per-file conversion worker and
    the batch loop of [main], together with the parts of the C++ standard
    library the program relies on ([std::filesystem::path] decomposition,
    a tree-shaped file system, [std::stoi], [std::ofstream]).

    The external codec libraries (libheif, libwebp) are a record of
    functions: the program owns none of their algorithms. *)

From Stdlib Require Import String Ascii List ZArith Lia Bool Arith.
From Stdlib Require Import Init.Byte.
Import ListNotations.

Local Open Scope string_scope.
Local Open Scope list_scope.

(* ================================================================= *)
(** ** std::filesystem::path on POSIX generic-format pathnames *)

(** A path is its pathname string, as [fs::path] stores it. *)
Definition path := string.

Definition slash : ascii := "/"%char.
Definition dot : ascii := "."%char.

(** [rsplit c s]: the text before and after the last occurrence of [c]
    in [s] ([std::string::rfind]), or [None] when [c] does not occur. *)
Fixpoint rsplit (c : ascii) (s : string) : option (string * string) :=
  match s with
  | EmptyString => None
  | String a r =>
      match rsplit c r with
      | Some (b, t) => Some (String a b, t)
      | None => if Ascii.eqb a c then Some (EmptyString, r) else None
      end
  end.

(** The components between separators: ["/a/b"] is [[""; "a"; "b"]]. *)
Fixpoint split_slash (s : string) : list string :=
  match s with
  | EmptyString => [EmptyString]
  | String a r =>
      if Ascii.eqb a slash then EmptyString :: split_slash r
      else match split_slash r with
           | h :: t => String a h :: t
           | [] => [String a EmptyString]
           end
  end.

(** Removes every trailing separator. *)
Fixpoint strip_slashes (s : string) : string :=
  match s with
  | EmptyString => EmptyString
  | String a r =>
      match strip_slashes r with
      | EmptyString => if Ascii.eqb a slash then EmptyString else String a EmptyString
      | r' => String a r'
      end
  end.

Definition ends_with_slash (s : string) : bool :=
  match rsplit slash s with
  | Some (_, EmptyString) => true
  | _ => false
  end.

(** [path::filename()]: the last element of the pathname. *)
Definition filename (p : path) : string :=
  match rsplit slash p with
  | Some (_, t) => t
  | None => p
  end.

(** [path::parent_path()]: the pathname itself when it has no relative
    part (empty, or separators only), otherwise the prefix that has one
    element fewer. *)
Definition parent_path (p : path) : path :=
  match strip_slashes p with
  | EmptyString => p
  | _ =>
      match rsplit slash p with
      | None => EmptyString
      | Some (b, _) =>
          match strip_slashes b with
          | EmptyString => "/"
          | b' => b'
          end
      end
  end.

(** Where [path::stem()] ends and [path::extension()] starts: at the last
    period of the file name, unless the name is ["."] or [".."], has no
    period, or its only period is the leading one. *)
Definition split_extension (f : string) : string * string :=
  if String.eqb f "." || String.eqb f ".." then (f, EmptyString)
  else match rsplit dot f with
       | None => (f, EmptyString)
       | Some (EmptyString, _) => (f, EmptyString)
       | Some (b, t) => (b, String dot t)
       end.

Definition stem (p : path) : string := fst (split_extension (filename p)).
Definition extension (p : path) : string := snd (split_extension (filename p)).

Definition is_absolute (p : path) : bool :=
  match p with
  | String a _ => Ascii.eqb a slash
  | EmptyString => false
  end.

(** [operator/]: an absolute right operand replaces the left one;
    otherwise a separator is added when the left operand has a file name. *)
Definition path_join (d q : path) : path :=
  if is_absolute q then q
  else match d with
       | EmptyString => q
       | _ => if ends_with_slash d then (d ++ q)%string else (d ++ "/" ++ q)%string
       end.

(** [std::tolower] in the "C" locale. *)
Definition tolower (c : ascii) : ascii :=
  let n := nat_of_ascii c in
  if ((65 <=? n) && (n <=? 90))%nat then ascii_of_nat (n + 32) else c.

Fixpoint lowercase (s : string) : string :=
  match s with
  | EmptyString => EmptyString
  | String a r => String (tolower a) (lowercase r)
  end.

(* ================================================================= *)
(** ** Exceptions and results *)

(** The exceptions the standard library can raise in this program.  [main]
    has no handler: a raised exception ends the process abnormally. *)
Inductive exn : Type :=
| invalid_argument
| out_of_range
| filesystem_error.

Inductive Result (A : Type) : Type :=
| Val (a : A)
| Throw (e : exn).

Arguments Val {A} a.
Arguments Throw {A} e.

(* ================================================================= *)
(** ** The file system *)

(** A file system is a tree: regular files hold bytes, directories hold
    named entries in enumeration order.  There are no symbolic links and
    no permissions in this model; the failures it has are a missing
    component, a file where a directory is needed, a directory where a
    file is needed, a device that runs out of space, and, where the
    program hands a pathname of the command line to the system (the
    input path, the output directory), a name or a pathname that is too
    long.  The entries of the tree themselves are taken to be within
    those limits. *)
#[local] Set Warnings "-register-all".

Inductive node : Type :=
| File (data : list byte)
| Dir (entries : list (string * node)).

(** The names from the root down to an entry. *)
Definition key := list string.

Fixpoint assoc (name : string) (es : list (string * node)) : option node :=
  match es with
  | [] => None
  | (n, v) :: r => if String.eqb n name then Some v else assoc name r
  end.

Fixpoint assoc_set (name : string) (v : node) (es : list (string * node))
  : list (string * node) :=
  match es with
  | [] => [(name, v)]
  | (n, x) :: r =>
      if String.eqb n name then (n, v) :: r else (n, x) :: assoc_set name v r
  end.

Fixpoint get (n : node) (k : key) : option node :=
  match k with
  | [] => Some n
  | name :: ks =>
      match n with
      | File _ => None
      | Dir es =>
          match assoc name es with
          | Some child => get child ks
          | None => None
          end
      end
  end.

(** Replaces the entry at [k], or creates it when only its last name is
    missing. *)
Fixpoint put (n : node) (k : key) (v : node) : option node :=
  match k with
  | [] => Some v
  | name :: ks =>
      match n with
      | File _ => None
      | Dir es =>
          match assoc name es with
          | Some child =>
              match put child ks v with
              | Some child' => Some (Dir (assoc_set name child' es))
              | None => None
              end
          | None =>
              match ks with
              | [] => Some (Dir (assoc_set name v es))
              | _ :: _ => None
              end
          end
      end
  end.

Record World : Type := mkWorld {
  root : node;
  cwd : key;
  free_space : nat
}.

Definition is_dir (o : option node) : bool :=
  match o with
  | Some (Dir _) => true
  | _ => false
  end.

(** Pathname resolution, one component at a time: every component is
    looked up in a directory; empty components and ["."] stay, [".."]
    goes up (the root is its own parent).  The last name need not exist. *)
Fixpoint resolve_from (r : node) (cur : key) (comps : list string) : option key :=
  match comps with
  | [] => Some cur
  | c :: cs =>
      if is_dir (get r cur) then
        if String.eqb c "" || String.eqb c "." then resolve_from r cur cs
        else if String.eqb c ".." then resolve_from r (removelast cur) cs
        else resolve_from r (cur ++ [c]) cs
      else None
  end.

Definition resolve (w : World) (p : path) : option key :=
  match p with
  | EmptyString => None
  | _ => resolve_from (root w) (if is_absolute p then [] else cwd w) (split_slash p)
  end.

Definition stat (w : World) (p : path) : option node :=
  match resolve w p with
  | Some k => get (root w) k
  | None => None
  end.

(** What the file status of a path says, for [fs::exists],
    [fs::is_directory] and [fs::is_regular_file]. *)
Definition exists_ (w : World) (p : path) : bool :=
  match stat w p with
  | Some _ => true
  | None => false
  end.

Definition is_directory (w : World) (p : path) : bool := is_dir (stat w p).

Definition is_regular_file (w : World) (p : path) : bool :=
  match stat w p with
  | Some (File _) => true
  | _ => false
  end.

(** The limits of the system on a name and on a pathname with its
    terminating null (Linux: [NAME_MAX], [PATH_MAX]). *)
Definition NAME_MAX : nat := 255.
Definition PATH_MAX : nat := 4096.

(** The walk of [stat] along the components of a pathname meets a name
    that is too long: the look-up of such a name in a directory fails
    with [ENAMETOOLONG].  The walk ends before that when a component is
    missing or is no directory ([ENOENT], [ENOTDIR]). *)
Fixpoint name_too_long (r : node) (cur : key) (comps : list string) : bool :=
  match comps with
  | [] => false
  | c :: cs =>
      if is_dir (get r cur) then
        if String.eqb c "" || String.eqb c "." then name_too_long r cur cs
        else if String.eqb c ".." then name_too_long r (removelast cur) cs
        else if (NAME_MAX <? String.length c)%nat then true
        else name_too_long r (cur ++ [c]) cs
      else false
  end.

(** [stat] fails with an error other than "not found": the pathname does
    not fit [PATH_MAX], or the walk meets a name that is too long. *)
Definition status_error (w : World) (p : path) : bool :=
  (PATH_MAX <=? String.length p)%nat
  || name_too_long (root w) (if is_absolute p then [] else cwd w) (split_slash p).

(** [fs::exists(p)]: the throwing overload of [fs::status] raises
    [fs::filesystem_error] when [stat] fails with an error other than
    "not found"; otherwise the status is examined. *)
Definition fs_exists (w : World) (p : path) : Result bool :=
  if status_error w p then Throw filesystem_error else Val (exists_ w p).

(** [fs::current_path] and [fs::absolute]. *)
Definition current_path (w : World) : path := ("/" ++ String.concat "/" (cwd w))%string.

Definition absolute (w : World) (p : path) : path :=
  if is_absolute p then p else path_join (current_path w) p.

(** [fs::file_size]: raises unless the path is a regular file. *)
Definition file_size (w : World) (p : path) : Result nat :=
  match stat w p with
  | Some (File d) => Val (length d)
  | _ => Throw filesystem_error
  end.

(** [fs::create_directories]: creates every missing directory along the
    path; raises when a component is a regular file, when a name is too
    long for a directory entry, and when the pathname does not fit
    [PATH_MAX]. *)
Fixpoint mkdirs_from (r : node) (cur : key) (comps : list string) : option node :=
  match comps with
  | [] => Some r
  | c :: cs =>
      if is_dir (get r cur) then
        if String.eqb c "" || String.eqb c "." then mkdirs_from r cur cs
        else if String.eqb c ".." then mkdirs_from r (removelast cur) cs
        else if (NAME_MAX <? String.length c)%nat then None
        else match get r (cur ++ [c]) with
             | Some (Dir _) => mkdirs_from r (cur ++ [c]) cs
             | Some (File _) => None
             | None =>
                 match put r (cur ++ [c]) (Dir []) with
                 | Some r' => mkdirs_from r' (cur ++ [c]) cs
                 | None => None
                 end
             end
      else None
  end.

Definition create_directories (w : World) (p : path) : Result World :=
  match p with
  | EmptyString => Throw filesystem_error
  | _ =>
      if (PATH_MAX <=? String.length p)%nat then Throw filesystem_error
      else
        match mkdirs_from (root w) (if is_absolute p then [] else cwd w)
                          (split_slash p) with
        | Some r' => Val (mkWorld r' (cwd w) (free_space w))
        | None => Throw filesystem_error
        end
  end.

(** [fs::directory_iterator(dir)]: the entries of [dir], each with the
    path [dir / name]; raises when [dir] is not a directory. *)
Definition directory_iterator (w : World) (dir : path) : Result (list path) :=
  match stat w dir with
  | Some (Dir es) => Val (map (fun e => path_join dir (fst e)) es)
  | _ => Throw filesystem_error
  end.

(** [fs::recursive_directory_iterator(dir)]: every entry below [dir], a
    directory before its own entries. *)
Fixpoint subtree (p : path) (n : node) {struct n} : list path :=
  match n with
  | File _ => []
  | Dir es =>
      flat_map (fun e => path_join p (fst e) :: subtree (path_join p (fst e)) (snd e)) es
  end.

Definition recursive_directory_iterator (w : World) (dir : path) : Result (list path) :=
  match stat w dir with
  | Some (Dir es) => Val (subtree dir (Dir es))
  | _ => Throw filesystem_error
  end.

(** [std::ofstream out(path, std::ios::binary)]: opens for writing,
    creating the file or truncating it.  [None] is a stream in the failed
    state ([!out]); otherwise the opened file and the world after the
    creation or truncation.  The stream of this model fails on a path
    that does not resolve and on a directory; a real stream has further
    failures (a directory or a file that may not be written, a name that
    is too long), which lead to the same [None]. *)
Definition ofstream_open (w : World) (p : path) : option (key * World) :=
  match resolve w p with
  | None => None
  | Some k =>
      match get (root w) k with
      | Some (Dir _) => None
      | Some (File old) =>
          match put (root w) k (File []) with
          | Some r' => Some (k, mkWorld r' (cwd w) (free_space w + length old))
          | None => None
          end
      | None =>
          match put (root w) k (File []) with
          | Some r' => Some (k, mkWorld r' (cwd w) (free_space w))
          | None => None
          end
      end
  end.

(** [out.write(data, size); out.close()]: the bytes that fit on the device
    reach the file; the flag is the stream state afterwards ([true] when
    every byte was written). *)
Definition ofstream_write (w : World) (k : key) (data : list byte) : bool * World :=
  let n := Nat.min (length data) (free_space w) in
  match put (root w) k (File (firstn n data)) with
  | Some r' => (length data <=? free_space w, mkWorld r' (cwd w) (free_space w - n))%nat
  | None => (false, w)
  end.

(* ================================================================= *)
(** ** The codec libraries *)

(** What [heif_decode_image] hands to the encoder: the interleaved RGB
    plane with its dimensions and stride. *)
Record image : Type := mkImage {
  img_width : Z;
  img_height : Z;
  img_stride : Z;
  img_rgb : list byte
}.

(** libheif and libwebp as the program calls them.  The three libheif
    calls fail with [None] ([err.code != heif_error_Ok]); [WebPEncodeRGB]
    returns the encoded bytes, none on failure (size 0). *)
Record Codec : Type := mkCodec {
  heif_ctx : Type;
  heif_handle : Type;
  heif_context_read : list byte -> option heif_ctx;
  heif_context_get_primary_image_handle : heif_ctx -> option heif_handle;
  heif_decode_image : heif_handle -> option image;
  WebPEncodeRGB : list byte -> Z -> Z -> Z -> Z -> list byte
}.

(** [heif_context_read_from_file]: reads the file, then parses it. *)
Definition heif_context_read_from_file (c : Codec) (w : World) (p : path)
  : option (heif_ctx c) :=
  match stat w p with
  | Some (File data) => heif_context_read c data
  | _ => None
  end.

(* ================================================================= *)
(** ** Options and messages *)

Record Options : Type := mkOptions {
  input : string;
  output_dir : string;
  quality : Z;
  recursive : bool;
  verbose : bool
}.

Definition default_options : Options := mkOptions "" "" 85 false false.

Definition set_input (o : Options) (v : string) : Options :=
  mkOptions v (output_dir o) (quality o) (recursive o) (verbose o).
Definition set_output_dir (o : Options) (v : string) : Options :=
  mkOptions (input o) v (quality o) (recursive o) (verbose o).
Definition set_quality (o : Options) (v : Z) : Options :=
  mkOptions (input o) (output_dir o) v (recursive o) (verbose o).
Definition set_recursive (o : Options) : Options :=
  mkOptions (input o) (output_dir o) (quality o) true (verbose o).
Definition set_verbose (o : Options) : Options :=
  mkOptions (input o) (output_dir o) (quality o) (recursive o) true.

(** The lines the program prints, in the order it prints them, on
    [std::cout] and [std::cerr] together. *)
Inductive msg : Type :=
| Usage (program_name : string)
| MissingArgument (arg : string)
| QualityOutOfRange
| UnknownOption (arg : string)
| InputNotFound (p : path)
| NoHeicFilesFound
| FoundFiles (n : nat)
| Decoding (p : path)
| FailedToReadHeic
| FailedToGetHandle
| FailedToDecode
| Dimensions (width height : Z)
| EncodingWebP (p : path)
| FailedToEncode
| FailedToCreateOutput (p : path)
| SizeReport (input_size webp_size : nat)
| Done
| Converted (source_name destination_name : string)
| Failed (source_name : string)
| Summary (successes : Z) (total : nat).

(* ================================================================= *)
(** ** std::stoi *)

Definition isspace (c : ascii) : bool :=
  let n := nat_of_ascii c in
  ((n =? 32) || ((9 <=? n) && (n <=? 13)))%nat.

Definition digit_value (c : ascii) : option Z :=
  let n := nat_of_ascii c in
  if ((48 <=? n) && (n <=? 57))%nat then Some (Z.of_nat (n - 48)) else None.

Fixpoint skip_spaces (s : string) : string :=
  match s with
  | String a r => if isspace a then skip_spaces r else s
  | EmptyString => s
  end.

(** The value of the longest prefix of decimal digits; what follows the
    digits is ignored, as [strtol] does. *)
Fixpoint read_digits (s : string) (acc : Z) : Z :=
  match s with
  | String a r =>
      match digit_value a with
      | Some d => read_digits r (10 * acc + d)%Z
      | None => acc
      end
  | EmptyString => acc
  end.

Definition INT_MIN : Z := (-2147483648)%Z.
Definition INT_MAX : Z := 2147483647%Z.

(** [std::stoi(str)]: leading white space, an optional sign, decimal
    digits.  No digits raise [std::invalid_argument]; a value that does
    not fit [int] raises [std::out_of_range]. *)
Definition stoi (s : string) : Result Z :=
  let s1 := skip_spaces s in
  let '(neg, s2) :=
    match s1 with
    | String a r =>
        if Ascii.eqb a "-"%char then (true, r)
        else if Ascii.eqb a "+"%char then (false, r)
        else (false, s1)
    | EmptyString => (false, s1)
    end in
  match s2 with
  | String d _ =>
      match digit_value d with
      | Some _ =>
          let v := read_digits s2 0%Z in
          let v' := if neg then (- v)%Z else v in
          if ((v' <? INT_MIN) || (INT_MAX <? v'))%Z then Throw out_of_range else Val v'
      | None => Throw invalid_argument
      end
  | EmptyString => Throw invalid_argument
  end.

(* ================================================================= *)
(** ** parse_args *)

(** How [parse_args] ends: it returns the options, calls [exit] after
    printing, or lets the exception of [std::stoi] escape. *)
Inductive parsed : Type :=
| Parsed (opts : Options)
| ParseExit (code : Z) (out : list msg)
| ParseThrow (e : exn).

(** [arg[0] == '-']; the first character of an empty string is the
    terminating null. *)
Definition starts_with_dash (arg : string) : bool :=
  match arg with
  | String a _ => Ascii.eqb a "-"%char
  | EmptyString => false
  end.

(** The loop of [parse_args] over [argv[i..argc-1]]. *)
Fixpoint parse_loop (program_name : string) (opts : Options) (args : list string)
  : parsed :=
  match args with
  | [] => Parsed opts
  | arg :: rest =>
      if String.eqb arg "-h" || String.eqb arg "--help" then
        ParseExit 0 [Usage program_name]
      else if String.eqb arg "-o" || String.eqb arg "--output" then
        match rest with
        | v :: rest' => parse_loop program_name (set_output_dir opts v) rest'
        | [] => ParseExit 1 [MissingArgument arg]
        end
      else if String.eqb arg "-q" || String.eqb arg "--quality" then
        match rest with
        | v :: rest' =>
            match stoi v with
            | Val q =>
                if ((q <? 1) || (100 <? q))%Z then ParseExit 1 [QualityOutOfRange]
                else parse_loop program_name (set_quality opts q) rest'
            | Throw e => ParseThrow e
            end
        | [] => ParseExit 1 [MissingArgument arg]
        end
      else if String.eqb arg "-r" || String.eqb arg "--recursive" then
        parse_loop program_name (set_recursive opts) rest
      else if String.eqb arg "-v" || String.eqb arg "--verbose" then
        parse_loop program_name (set_verbose opts) rest
      else if starts_with_dash arg then
        ParseExit 1 [UnknownOption arg]
      else
        parse_loop program_name (set_input opts arg) rest
  end.

(** [parse_args(argc, argv)] with [argv = program_name :: args]. *)
Definition parse_args (program_name : string) (args : list string) : parsed :=
  parse_loop program_name default_options args.

(* ================================================================= *)
(** ** Discovery and output path *)

Definition is_heic_file (w : World) (p : path) : bool :=
  if negb (is_regular_file w p) then false
  else
    let ext := lowercase (extension p) in
    String.eqb ext ".heic" || String.eqb ext ".heif".

Definition find_heic_files (w : World) (dir : path) (recursive : bool)
  : Result (list path) :=
  if recursive then
    match recursive_directory_iterator w dir with
    | Val entries => Val (filter (is_heic_file w) entries)
    | Throw e => Throw e
    end
  else
    match directory_iterator w dir with
    | Val entries => Val (filter (is_heic_file w) entries)
    | Throw e => Throw e
    end.

Definition get_output_path (input : path) (output_dir : string) : path :=
  let dir := match output_dir with
             | EmptyString => parent_path input
             | _ => output_dir
             end in
  path_join dir (stem input ++ ".webp")%string.

(* ================================================================= *)
(** ** convert_heic_to_webp *)

(** The result of one call: the returned flag, the lines printed, and the
    world afterwards.  [fs::file_size], called for the verbose size line,
    is the one place where an exception could leave the function. *)
Definition convert_heic_to_webp (c : Codec) (input_path output_path : path)
    (opts : Options) (w : World) : Result (bool * list msg * World) :=
  let out0 := if verbose opts then [Decoding input_path] else [] in
  match heif_context_read_from_file c w input_path with
  | None => Val (false, out0 ++ [FailedToReadHeic], w)
  | Some ctx =>
      match heif_context_get_primary_image_handle c ctx with
      | None => Val (false, out0 ++ [FailedToGetHandle], w)
      | Some handle =>
          match heif_decode_image c handle with
          | None => Val (false, out0 ++ [FailedToDecode], w)
          | Some img =>
              let out1 :=
                out0 ++ (if verbose opts
                         then [Dimensions (img_width img) (img_height img);
                               EncodingWebP output_path]
                         else []) in
              let webp_data :=
                WebPEncodeRGB c (img_rgb img) (img_width img) (img_height img)
                              (img_stride img) (quality opts) in
              let webp_size := length webp_data in
              if (webp_size =? 0)%nat then Val (false, out1 ++ [FailedToEncode], w)
              else
                match ofstream_open w output_path with
                | None => Val (false, out1 ++ [FailedToCreateOutput output_path], w)
                | Some (k, w1) =>
                    let w2 := snd (ofstream_write w1 k webp_data) in
                    if verbose opts then
                      match file_size w2 input_path with
                      | Val input_size =>
                          Val (true, out1 ++ [SizeReport input_size webp_size], w2)
                      | Throw e => Throw e
                      end
                    else Val (true, out1, w2)
                end
          end
      end
  end.

(* ================================================================= *)
(** ** main *)

(** One call of [convert_heic_to_webp] made by the batch loop: its two
    path arguments and the flag it returned. *)
Record call : Type := mkCall {
  call_source : path;
  call_destination : path;
  call_ok : bool
}.

(** The state of the batch loop: the two counters of the source and the
    world, and, as the record of what the loop has done, the lines
    printed so far and the calls of [convert_heic_to_webp] made so far.
    The counters are [int] in the source and are incremented once per
    file: they stay below [INT_MAX] for any batch that fits in memory
    (signed overflow has no defined result in C++), so they are plain
    integers here. *)
Record batch : Type := mkBatch {
  success_count : Z;
  error_count : Z;
  batch_world : World;
  batch_out : list msg;
  batch_calls : list call
}.

Definition batch_start (w : World) (out : list msg) : batch :=
  mkBatch 0 0 w out [].

(** The body of [for (const auto& file : files)], for one file. *)
Definition convert_one (c : Codec) (opts : Options) (file : path) (st : batch)
  : Result batch :=
  let output_path := get_output_path file (output_dir opts) in
  match convert_heic_to_webp c file output_path opts (batch_world st) with
  | Throw e => Throw e
  | Val (true, lines, w') =>
      Val (mkBatch (success_count st + 1) (error_count st) w'
             (batch_out st ++ lines ++
                [if verbose opts then Done
                 else Converted (filename file) (filename output_path)])
             (batch_calls st ++ [mkCall file output_path true]))
  | Val (false, lines, w') =>
      Val (mkBatch (success_count st) (error_count st + 1) w'
             (batch_out st ++ lines ++ [Failed (filename file)])
             (batch_calls st ++ [mkCall file output_path false]))
  end.

Fixpoint convert_all (c : Codec) (opts : Options) (files : list path) (st : batch)
  : Result batch :=
  match files with
  | [] => Val st
  | file :: rest =>
      match convert_one c opts file st with
      | Val st' => convert_all c opts rest st'
      | Throw e => Throw e
      end
  end.

(** How the process ends: [return]/[exit] with a code, or an exception
    that nothing catches. *)
Inductive outcome : Type :=
| Exited (code : Z)
| Terminated (e : exn).

Record run : Type := mkRun {
  status : outcome;
  output : list msg;
  final_world : World;
  conversions : list call
}.

(** The loop over [files] and what follows it in [main]. *)
Definition run_batch (c : Codec) (opts : Options) (files : list path)
    (w : World) (out : list msg) : run :=
  match convert_all c opts files (batch_start w out) with
  | Throw e => mkRun (Terminated e) out w []
  | Val st =>
      mkRun (Exited (if (0 <? error_count st)%Z then 1 else 0))
            (batch_out st ++ [Summary (success_count st) (length files)])
            (batch_world st) (batch_calls st)
  end.

(** [main] from the file list on: the batch for a directory or a single
    file.  [fs::is_directory] examines the path that [fs::exists] has
    examined before it. *)
Definition main_files (c : Codec) (opts : Options) (input_path : path) (w : World)
  : run :=
  if is_directory w input_path then
    match find_heic_files w input_path (recursive opts) with
    | Throw e => mkRun (Terminated e) [] w []
    | Val [] => mkRun (Exited 0) [NoHeicFilesFound] w []
    | Val files => run_batch c opts files w [FoundFiles (length files)]
    end
  else run_batch c opts [input_path] w [].

(** [main] up to the file list: the argument count, [parse_args], the
    checks on the input path and the creation of the output directory.
    Either the run ends there, or the batch goes on with the options, the
    absolute input path and the world.  Nothing catches the exception of
    [fs::exists] or of [fs::create_directories]. *)
Definition startup (program_name : string) (args : list string) (w : World)
  : run + (Options * path * World) :=
  match args with
  | [] => inl (mkRun (Exited 1) [Usage program_name] w [])
  | _ :: _ =>
      match parse_args program_name args with
      | ParseExit code out => inl (mkRun (Exited code) out w [])
      | ParseThrow e => inl (mkRun (Terminated e) [] w [])
      | Parsed opts =>
          match input opts with
          | EmptyString => inl (mkRun (Exited 1) [Usage program_name] w [])
          | _ =>
              let input_path := absolute w (input opts) in
              match fs_exists w input_path with
              | Throw e => inl (mkRun (Terminated e) [] w [])
              | Val false => inl (mkRun (Exited 1) [InputNotFound input_path] w [])
              | Val true =>
                  match output_dir opts with
                  | EmptyString => inr (opts, input_path, w)
                  | _ =>
                      match create_directories w (output_dir opts) with
                      | Throw e => inl (mkRun (Terminated e) [] w [])
                      | Val w' => inr (opts, input_path, w')
                      end
                  end
              end
          end
      end
  end.

(** [main(argc, argv)] with [argv = program_name :: args], started in the
    world [w]. *)
Definition main (c : Codec) (program_name : string) (args : list string) (w : World)
  : run :=
  match startup program_name args w with
  | inl r => r
  | inr (opts, input_path, w') => main_files c opts input_path w'
  end.

(* ================================================================= *)
(** ** Well-formed file systems and the words of the specification *)

Fixpoint contains (c : ascii) (s : string) : bool :=
  match s with
  | EmptyString => false
  | String a r => Ascii.eqb a c || contains c r
  end.

(** A directory entry name: not empty, not ["."] or [".."], no separator. *)
Definition valid_name (n : string) : bool :=
  negb (String.eqb n "") && negb (String.eqb n ".") && negb (String.eqb n "..")
  && negb (contains slash n).

Fixpoint distinct (l : list string) : bool :=
  match l with
  | [] => true
  | a :: r => negb (existsb (String.eqb a) r) && distinct r
  end.

(** Every directory holds valid, pairwise distinct names. *)
Fixpoint wf_node (n : node) : bool :=
  match n with
  | File _ => true
  | Dir es =>
      distinct (map fst es)
      && forallb (fun e => valid_name (fst e) && wf_node (snd e)) es
  end.


(** The path of the entry reached from [dir] through [names]. *)
Definition descend (dir : path) (names : list string) : path :=
  fold_left path_join names dir.

(** The positional arguments of a command line, as [parse_args] reads it:
    the value that follows an output or quality flag is not one. *)
Definition is_flag (arg : string) : bool :=
  String.eqb arg "-h" || String.eqb arg "--help"
  || String.eqb arg "-o" || String.eqb arg "--output"
  || String.eqb arg "-q" || String.eqb arg "--quality"
  || String.eqb arg "-r" || String.eqb arg "--recursive"
  || String.eqb arg "-v" || String.eqb arg "--verbose".

Definition is_positional (arg : string) : bool :=
  negb (is_flag arg) && negb (starts_with_dash arg).

Definition takes_value (arg : string) : bool :=
  String.eqb arg "-o" || String.eqb arg "--output"
  || String.eqb arg "-q" || String.eqb arg "--quality".

Fixpoint positionals (args : list string) : list string :=
  match args with
  | [] => []
  | arg :: rest =>
      if takes_value arg then
        match rest with
        | _ :: rest' => positionals rest'
        | [] => []
        end
      else if is_positional arg then arg :: positionals rest
      else positionals rest
  end.

(** What is at a key: nothing, a regular file with its bytes, or a
    directory. *)
Inductive shape : Type :=
| Absent
| IsFile (data : list byte)
| IsDir.

Definition shape_of (o : option node) : shape :=
  match o with
  | None => Absent
  | Some (File d) => IsFile d
  | Some (Dir _) => IsDir
  end.

(** A node without entries below it. *)
Definition leaf (v : node) : bool :=
  match v with
  | File _ => true
  | Dir [] => true
  | Dir (_ :: _) => false
  end.

Definition regular (s : shape) : Prop :=
  match s with
  | IsFile _ => True
  | _ => False
  end.

(** Two worlds of which the second has a regular file written at [k],
    where the first had no directory. *)
Definition file_written (w w' : World) (k : key) (d : list byte) : Prop :=
  cwd w' = cwd w
  /\ put (root w) k (File d) = Some (root w')
  /\ shape_of (get (root w) k) <> IsDir.

(** The three libheif calls in a row, and the call to the encoder. *)
Definition decoded (c : Codec) (w : World) (p : path) : option image :=
  match heif_context_read_from_file c w p with
  | Some ctx =>
      match heif_context_get_primary_image_handle c ctx with
      | Some handle => heif_decode_image c handle
      | None => None
      end
  | None => None
  end.

Definition encoded (c : Codec) (opts : Options) (img : image) : list byte :=
  WebPEncodeRGB c (img_rgb img) (img_width img) (img_height img) (img_stride img)
                (quality opts).

(** The flag and the world one conversion leaves, without its messages. *)
Definition conversion (c : Codec) (source destination : path) (opts : Options)
    (w : World) : bool * World :=
  match decoded c w source with
  | None => (false, w)
  | Some img =>
      match encoded c opts img with
      | [] => (false, w)
      | data =>
          match ofstream_open w destination with
          | None => (false, w)
          | Some (k, w1) => (true, snd (ofstream_write w1 k data))
          end
      end
  end.

(** The conversions of a batch, each in the world the previous ones
    left. *)
Fixpoint batch_trace (c : Codec) (opts : Options) (files : list path) (w : World)
  : list call :=
  match files with
  | [] => []
  | file :: rest =>
      let destination := get_output_path file (output_dir opts) in
      let r := conversion c file destination opts w in
      mkCall file destination (fst r) :: batch_trace c opts rest (snd r)
  end.

Fixpoint batch_end (c : Codec) (opts : Options) (files : list path) (w : World)
  : World :=
  match files with
  | [] => w
  | file :: rest =>
      batch_end c opts rest
        (snd (conversion c file (get_output_path file (output_dir opts)) opts w))
  end.

(** The line that closes the report of one file. *)
Definition is_report (m : msg) : bool :=
  match m with
  | Done | Converted _ _ | Failed _ => true
  | _ => false
  end.

Definition report (opts : Options) (x : call) : msg :=
  if call_ok x then
    if verbose opts then Done
    else Converted (filename (call_source x)) (filename (call_destination x))
  else Failed (filename (call_source x)).

Definition successes (calls : list call) : nat :=
  length (filter call_ok calls).

Definition failures (calls : list call) : nat :=
  length (filter (fun x => negb (call_ok x)) calls).

(* ================================================================= *)
(** ** A small codec and a small world, for concrete runs *)

(** A stand-in codec: a file decodes when its first byte is [x48]; the
    pixels are the rest of the file; the encoder prefixes one byte. *)
Definition toy_codec : Codec :=
  mkCodec (list byte) (list byte)
    (fun data => match data with
                 | x48 :: rest => Some rest
                 | _ => None
                 end)
    (fun ctx => Some ctx)
    (fun handle => Some (mkImage 1 1 3 handle))
    (fun rgb _ _ _ _ => x57 :: rgb).

(** [/photos] holds two source files, a text file and a sub-directory
    with one more source file; [/notes.txt] and [/broken.heic] do not
    decode; [/scan.jpg] does. *)
Definition photos : node :=
  Dir [("a.heic", File [x48; x01; x02; x03]);
       ("b.HEIF", File [x48; x04; x05; x06]);
       ("notes.txt", File [x6e; x6f]);
       ("sub", Dir [("c.heic", File [x48; x07])])].

Definition demo_root : node :=
  Dir [("photos", photos);
       ("notes.txt", File [x6e; x6f]);
       ("broken.heic", File [x00]);
       ("scan.jpg", File [x48; x08; x09]);
       ("empty", Dir [])].

Definition demo_world : World := mkWorld demo_root [] 1000.

(** The same tree on a device with two free bytes. *)
Definition full_world : World := mkWorld demo_root [] 2.

(* ================================================================= *)
(** ** format_bytes *)

(** [size_t] to [double] (IEEE 754 binary64): the nearest number with 53
    significant bits, ties to the even one.  Below [2^53] the conversion
    is exact. *)
Definition to_double (n : N) : N :=
  if (n <? 2 ^ 53)%N then n
  else
    let e := (N.log2 n - 52)%N in
    let q := N.shiftr n e in
    let r := (n mod 2 ^ e)%N in
    let half := (2 ^ (e - 1))%N in
    let q' := if (r <? half)%N then q
              else if (half <? r)%N then (q + 1)%N
              else if N.even q then q else (q + 1)%N in
    (q' * 2 ^ e)%N.

(** The quotient [num / den] in tenths, rounded to the nearest tenth, ties
    to the even one: what ["%.1f"] prints of a [double] that holds
    [num / den] exactly (a division by a power of two is exact). *)
Definition round_tenths (num den : N) : N :=
  let t := (10 * num / den)%N in
  let r := (10 * num mod den)%N in
  if (2 * r <? den)%N then t
  else if (den <? 2 * r)%N then (t + 1)%N
  else if N.even t then t else (t + 1)%N.

Definition digit_char (d : N) : ascii := ascii_of_N (48 + d).

(** The decimal digits of [n], at most [fuel] of them, before [acc]. *)
Fixpoint decimal_digits (fuel : nat) (n : N) (acc : string) : string :=
  match fuel with
  | O => acc
  | S fuel' =>
      let acc' := String (digit_char (n mod 10)) acc in
      if (n / 10 =? 0)%N then acc' else decimal_digits fuel' (n / 10) acc'
  end.

(** ["%zu"]: a [size_t] has at most 20 decimal digits. *)
Definition print_zu (n : N) : string := decimal_digits 20 n EmptyString.

(** ["%.1f"] of a number given in tenths. *)
Definition print_1f (tenths : N) : string :=
  (print_zu (tenths / 10) ++ "." ++ String (digit_char (tenths mod 10)) EmptyString)%string.

(** [snprintf(buf, sizeof(buf), ...)] with [char buf[64]]: at most 63
    characters are kept. *)
Definition snprintf_buf (s : string) : string := substring 0 63 s.

Definition format_bytes (bytes : N) : string :=
  if (bytes <? 1024)%N then
    snprintf_buf (print_zu bytes ++ " B")
  else if (bytes <? 1024 * 1024)%N then
    snprintf_buf (print_1f (round_tenths (to_double bytes) 1024) ++ " KB")
  else
    snprintf_buf (print_1f (round_tenths (to_double bytes) (1024 * 1024)) ++ " MB").

(* ================================================================= *)
(** ** Reading a command line *)

(** The command line cut into tokens the way [parse_args] walks it: an
    output or quality flag takes the argument that follows it, whatever
    that argument is. *)
Fixpoint tokens (args : list string) : list (string * option string) :=
  match args with
  | [] => []
  | arg :: rest =>
      if takes_value arg then
        match rest with
        | v :: rest' => (arg, Some v) :: tokens rest'
        | [] => [(arg, None)]
        end
      else (arg, None) :: tokens rest
  end.

(** The values given to a flag with a short and a long name, in order. *)
Definition values_of (short long : string) (ts : list (string * option string))
  : list string :=
  flat_map (fun t =>
              if String.eqb (fst t) short || String.eqb (fst t) long then
                match snd t with
                | Some v => [v]
                | None => []
                end
              else []) ts.

Definition has_flag (short long : string) (ts : list (string * option string))
  : bool :=
  existsb (fun t => String.eqb (fst t) short || String.eqb (fst t) long) ts.

(** The lines with which [convert_heic_to_webp] reports a failure. *)
Definition is_failure_line (m : msg) : bool :=
  match m with
  | FailedToReadHeic | FailedToGetHandle | FailedToDecode
  | FailedToEncode | FailedToCreateOutput _ => true
  | _ => false
  end.

(** Text that cannot continue a number: empty, or not starting with a
    digit. *)
Definition no_digit_start (s : string) : bool :=
  match s with
  | EmptyString => true
  | String a _ => match digit_value a with
                  | Some _ => false
                  | None => true
                  end
  end.

Fixpoint all_spaces (s : string) : bool :=
  match s with
  | EmptyString => true
  | String a r => isspace a && all_spaces r
  end.

(** Two source files of one directory with the same stem. *)
Definition twins_world : World :=
  mkWorld (Dir [("album", Dir [("a.heic", File [x48; x01]);
                               ("a.HEIF", File [x48; x02; x03])])]) [] 100.

(** The lists of names that lead from a node to the nodes below it, in
    the order of the recursive iterator. *)
Fixpoint below (n : node) {struct n} : list (list string) :=
  match n with
  | File _ => []
  | Dir es => flat_map (fun e => [fst e] :: map (cons (fst e)) (below (snd e))) es
  end.

(** The components of a directory path, without the empty one that a
    trailing separator adds. *)
Definition dir_components (dir : path) : list string :=
  if ends_with_slash dir then removelast (split_slash dir) else split_slash dir.




(* ================================================================= *)
(** * Properties *)

(** ** Strings and paths *)

(** The decomposition of paths on examples, as [std::filesystem] gives them. *)
Example filename_ex : filename "/photos/a.b.heic" = "a.b.heic".
Proof. reflexivity. Qed.

Example parent_ex :
  map parent_path
      ["/photos/a.heic"; "a.heic"; "/a.heic"; "a/b/"; "a//b"; "//a"; "/"; ""; "///"]
  = ["/photos"; ""; "/"; "a/b"; "a"; "/"; "/"; ""; "///"].
Proof. reflexivity. Qed.

Example stem_ex :
  map stem ["a.b.heic"; ".heic"; "..heic"; "a."; ".."; "..."; "x/photo"; "."]
  = ["a.b"; ".heic"; "."; "a"; ".."; ".."; "photo"; "."].
Proof. reflexivity. Qed.

Example ext_ex :
  map extension ["a.b.heic"; ".heic"; "..heic"; "a."; ".."; "..."; "x/photo"; "."]
  = [".heic"; ""; ".heic"; "."; ""; "."; ""; ""].
Proof. reflexivity. Qed.

Example join_ex :
  map (fun x => path_join (fst x) (snd x))
      [("out", "a.webp"); ("out/", "a.webp"); ("", "a.webp"); ("/", "a.webp");
       ("/x", "/y"); ("foo", "")]
  = ["out/a.webp"; "out/a.webp"; "a.webp"; "/a.webp"; "/y"; "foo/"].
Proof. reflexivity. Qed.

Example lower_ex : lowercase ".HeIC" = ".heic".
Proof. reflexivity. Qed.

Example split_ex :
  map split_slash ["/a/b"; "a/"; ""; "a//b"]
  = [[""; "a"; "b"]; ["a"; ""]; [""]; ["a"; ""; "b"]].
Proof. reflexivity. Qed.

Example stoi_ex :
  map stoi ["85"; " +42xyz"; "-7"; "abc"; ""; "99999999999"; "2147483647"; "2147483648"]
  = [Val 85%Z; Val 42%Z; Val (-7)%Z; Throw invalid_argument; Throw invalid_argument;
     Throw out_of_range; Val 2147483647%Z; Throw out_of_range].
Proof. reflexivity. Qed.

(** The end-to-end scenario of the specification: a directory with two
    source files and a text file, converted into an output directory. *)
Example photos_to_out :
  let r := main toy_codec "prog" ["/photos"; "-o"; "/out"] demo_world in
  status r = Exited 0
  /\ output r = [FoundFiles 2; Converted "a.heic" "a.webp";
                 Converted "b.HEIF" "b.webp"; Summary 2 2]
  /\ map call_destination (conversions r) = ["/out/a.webp"; "/out/b.webp"]
  /\ stat (final_world r) "/out/a.webp" = Some (File [x57; x01; x02; x03])
  /\ stat (final_world r) "/out/notes.webp" = None.
Proof. repeat split. Qed.

(** Strings. *)
Lemma append_nil_r (s : string) : (s ++ "")%string = s.
Proof. induction s as [|a s IH]; simpl; [reflexivity | now rewrite IH]. Qed.

Lemma append_assoc (a b c : string) : ((a ++ b) ++ c)%string = (a ++ (b ++ c))%string.
Proof. induction a as [|x a IH]; simpl; [reflexivity | now rewrite IH]. Qed.

Lemma contains_append (c : ascii) (a b : string) :
  contains c (a ++ b)%string = contains c a || contains c b.
Proof.
  induction a as [|x a IH]; simpl; [reflexivity|].
  rewrite IH. now rewrite orb_assoc.
Qed.

Lemma rsplit_none (c : ascii) (s : string) :
  rsplit c s = None <-> contains c s = false.
Proof.
  induction s as [|a s IH]; simpl; [tauto|].
  destruct (rsplit c s) as [[b t]|].
  - split; [discriminate|]. intros H. apply orb_false_elim in H.
    destruct H as [_ H]. apply IH in H. discriminate.
  - destruct (Ascii.eqb a c); simpl; [split; discriminate|].
    split; intros _; [now apply IH | reflexivity].
Qed.

(** What [rsplit] returns is a decomposition at the last occurrence. *)
Lemma rsplit_some (c : ascii) (s b t : string) :
  rsplit c s = Some (b, t) ->
  s = (b ++ String c t)%string /\ contains c t = false.
Proof.
  revert b t. induction s as [|a s IH]; simpl; intros b t H; [discriminate|].
  destruct (rsplit c s) as [[b' t']|] eqn:E.
  - inversion H; subst. destruct (IH _ _ eq_refl) as [-> Hc].
    split; [reflexivity | assumption].
  - destruct (Ascii.eqb_spec a c) as [->|]; [|discriminate].
    inversion H; subst. split; [reflexivity | now apply rsplit_none].
Qed.

Lemma rsplit_append (c : ascii) (s t : string) :
  contains c t = false ->
  rsplit c (s ++ t)%string =
    match rsplit c s with
    | Some (b, x) => Some (b, (x ++ t)%string)
    | None => None
    end.
Proof.
  intros Ht. induction s as [|a s IH]; simpl.
  - now apply rsplit_none.
  - rewrite IH. destruct (rsplit c s) as [[b x]|]; [reflexivity|].
    destruct (Ascii.eqb a c); reflexivity.
Qed.

Lemma rsplit_at (c : ascii) (s t : string) :
  contains c t = false ->
  rsplit c (s ++ String c t)%string = Some (s, t).
Proof.
  intros Ht. induction s as [|a s IH]; simpl.
  - apply rsplit_none in Ht. rewrite Ht. now rewrite Ascii.eqb_refl.
  - now rewrite IH.
Qed.

Lemma filename_no_slash (p : path) : contains slash (filename p) = false.
Proof.
  unfold filename. destruct (rsplit slash p) as [[b t]|] eqn:E.
  - now apply rsplit_some in E.
  - now apply rsplit_none.
Qed.

Lemma filename_of_name (n : string) : contains slash n = false -> filename n = n.
Proof. intros H. unfold filename. apply rsplit_none in H. now rewrite H. Qed.

Lemma is_absolute_no_slash (n : string) : contains slash n = false -> is_absolute n = false.
Proof.
  destruct n as [|a n]; simpl; [reflexivity|].
  intros H. now apply orb_false_elim in H.
Qed.

Lemma ends_with_slash_inv (d : string) :
  ends_with_slash d = true -> exists b, d = (b ++ "/")%string.
Proof.
  unfold ends_with_slash. destruct (rsplit slash d) as [[b t]|] eqn:E; [|discriminate].
  destruct t; [|discriminate]. intros _. exists b. now apply rsplit_some in E.
Qed.

(** Joining a directory and a name: the three shapes of the result. *)
Lemma path_join_name (d n : string) :
  contains slash n = false ->
  path_join d n = n /\ d = ""
  \/ (exists b, d = (b ++ "/")%string /\ path_join d n = (b ++ String slash n)%string)
  \/ path_join d n = (d ++ String slash n)%string /\ d <> "" /\ ends_with_slash d = false.
Proof.
  intros Hn. unfold path_join. rewrite (is_absolute_no_slash _ Hn).
  destruct d as [|a d]; [left; split; reflexivity|].
  destruct (ends_with_slash (String a d)) eqn:E.
  - right; left. destruct (ends_with_slash_inv _ E) as [b Hb]. exists b.
    split; [assumption|]. rewrite Hb. now rewrite append_assoc.
  - right; right. repeat split; congruence.
Qed.

Lemma filename_join (d n : string) :
  contains slash n = false -> filename (path_join d n) = n.
Proof.
  intros Hn. destruct (path_join_name d n Hn) as [[-> _]|[(b & _ & ->)|[-> _]]].
  - now apply filename_of_name.
  - unfold filename. now rewrite rsplit_at.
  - unfold filename. now rewrite rsplit_at.
Qed.


Lemma split_extension_parts (f : string) :
  (fst (split_extension f) ++ snd (split_extension f))%string = f
  /\ (snd (split_extension f) = ""
      \/ exists e, snd (split_extension f) = String dot e /\ contains dot e = false).
Proof.
  unfold split_extension.
  destruct (String.eqb f "." || String.eqb f "..").
  { simpl. split; [apply append_nil_r | now left]. }
  destruct (rsplit dot f) as [[b t]|] eqn:E.
  - apply rsplit_some in E. destruct E as [-> Ht].
    destruct b as [|x b]; cbn [fst snd].
    + split; [apply append_nil_r | now left].
    + split; [reflexivity | right; now exists t].
  - simpl. split; [apply append_nil_r | now left].
Qed.

Lemma stem_extension (p : path) : (stem p ++ extension p)%string = filename p.
Proof. apply split_extension_parts. Qed.

Lemma stem_no_slash (p : path) : contains slash (stem p) = false.
Proof.
  pose proof (filename_no_slash p) as H. rewrite <- stem_extension in H.
  rewrite contains_append in H. now apply orb_false_elim in H.
Qed.

Lemma length_append (a b : string) :
  String.length (a ++ b)%string = String.length a + String.length b.
Proof. induction a as [|x a IH]; simpl; [reflexivity | now rewrite IH]. Qed.

Lemma eqb_append_webp (x : string) (s : string) :
  String.length s < 5 -> String.eqb (x ++ ".webp")%string s = false.
Proof.
  intros Hs. apply String.eqb_neq. intros H.
  apply (f_equal String.length) in H. rewrite length_append in H.
  simpl in H. lia.
Qed.

(** A non-empty name followed by [.webp] has that name as its stem. *)
Lemma split_extension_webp (x : string) :
  x <> "" -> split_extension (x ++ ".webp")%string = (x, ".webp").
Proof.
  intros Hx. unfold split_extension.
  rewrite !eqb_append_webp by (simpl; lia). simpl.
  change (x ++ ".webp")%string with (x ++ String dot "webp")%string.
  rewrite rsplit_at by reflexivity.
  destruct x; [congruence | reflexivity].
Qed.

Lemma stem_empty (p : path) : stem p = "" -> filename p = "".
Proof.
  unfold stem, split_extension. intros H.
  destruct (String.eqb (filename p) "." || String.eqb (filename p) ".."); [exact H|].
  destruct (rsplit dot (filename p)) as [[b t]|] eqn:E; [|exact H].
  destruct b; [exact H | discriminate].
Qed.

Lemma get_output_path_join (input : path) (output_dir : string) :
  get_output_path input output_dir =
  path_join (if String.eqb output_dir "" then parent_path input else output_dir)
            (stem input ++ ".webp")%string.
Proof. unfold get_output_path. destruct output_dir; reflexivity. Qed.

Lemma webp_name_no_slash (input : path) : contains slash (stem input ++ ".webp")%string = false.
Proof. rewrite contains_append, stem_no_slash. reflexivity. Qed.

Lemma get_output_path_filename (input : path) (output_dir : string) :
  filename (get_output_path input output_dir) = (stem input ++ ".webp")%string.
Proof. rewrite get_output_path_join. apply filename_join, webp_name_no_slash. Qed.

(** C6. The destination is the override directory when one is given and
    the parent directory of the source otherwise, followed (after one
    separator unless the directory already ends with one or is empty) by
    the stem of the source and [.webp]; the stem is the file name of the
    source without its final extension, which holds exactly one period;
    a source named [a.b.heic] gives the destination stem [a.b]. *)
Theorem get_output_path_resolution (input : path) (output_dir : string) :
  let dir := if String.eqb output_dir "" then parent_path input else output_dir in
  let destination := get_output_path input output_dir in
  destination = path_join dir (stem input ++ ".webp")%string
  /\ (exists sep, (sep = "" \/ sep = "/")
                  /\ destination = (dir ++ sep ++ stem input ++ ".webp")%string)
  /\ filename destination = (stem input ++ ".webp")%string
  /\ filename input = (stem input ++ extension input)%string
  /\ (extension input = ""
      \/ exists e, extension input = String dot e /\ contains dot e = false)
  /\ (filename input <> "" ->
      stem destination = stem input /\ extension destination = ".webp")
  /\ (filename input = "a.b.heic" ->
      stem destination = "a.b" /\ filename destination = "a.b.webp").
Proof.
  intros dir destination.
  assert (Hj : destination = path_join dir (stem input ++ ".webp")%string)
    by apply get_output_path_join.
  assert (Hf : filename destination = (stem input ++ ".webp")%string)
    by apply get_output_path_filename.
  assert (Hne : filename input <> "" ->
                stem destination = stem input /\ extension destination = ".webp").
  { intros Hn. unfold stem at 1, extension. rewrite Hf.
    rewrite split_extension_webp; [split; reflexivity|].
    intros H. now apply stem_empty in H. }
  split; [exact Hj|]. split.
  { destruct (path_join_name dir _ (webp_name_no_slash input))
      as [[E ->]|[(b & Hb & E)|[E _]]].
    - exists "". split; [now left|]. now rewrite Hj, E.
    - exists "". split; [now left|]. rewrite Hj, E, Hb. simpl.
      now rewrite append_assoc.
    - exists "/". split; [now right|]. now rewrite Hj, E. }
  split; [exact Hf|]. split; [symmetry; apply stem_extension|].
  split; [apply split_extension_parts|].
  split; [exact Hne|].
  intros Hn. assert (Hs : stem input = "a.b") by (unfold stem; now rewrite Hn).
  split.
  - destruct Hne as [-> _]; [rewrite Hn; discriminate | exact Hs].
  - now rewrite Hf, Hs.
Qed.

Lemma get_output_path_resolution_witness :
  filename "/photos/a.b.heic" = "a.b.heic"
  /\ get_output_path "/photos/a.b.heic" "out" = "out/a.b.webp"
  /\ stem (get_output_path "/photos/a.b.heic" "out") = "a.b"
  /\ stem (get_output_path "/photos/a.b.heic" "") = "a.b"
  /\ get_output_path "/photos/a.b.heic" "" = "/photos/a.b.webp".
Proof.
  split; [reflexivity|]. split; [reflexivity|].
  split; [apply (get_output_path_resolution "/photos/a.b.heic" "out"); reflexivity|].
  split; [apply (get_output_path_resolution "/photos/a.b.heic" ""); reflexivity|].
  reflexivity.
Defined.

(* ================================================================= *)
(** ** parse_args *)

(** Induction for a loop that consumes one or two arguments per turn. *)
Lemma args_ind (P : list string -> Prop) :
  P [] ->
  (forall a l, P l -> (forall b l', l = b :: l' -> P l') -> P (a :: l)) ->
  forall l, P l.
Proof.
  intros H0 Hs l.
  assert (H : P l /\ (forall b l', l = b :: l' -> P l')).
  { induction l as [|a l [IH1 IH2]].
    - split; [exact H0 | discriminate].
    - split; [now apply Hs|]. intros b l' E. inversion E; subst. exact IH1. }
  apply H.
Qed.

(** The tests of [parse_loop] on one argument, decided. *)
Ltac case_arg arg :=
  destruct (String.eqb_spec arg "-h"); [subst arg|];
  [|destruct (String.eqb_spec arg "--help"); [subst arg|];
    [|destruct (String.eqb_spec arg "-o"); [subst arg|];
      [|destruct (String.eqb_spec arg "--output"); [subst arg|];
        [|destruct (String.eqb_spec arg "-q"); [subst arg|];
          [|destruct (String.eqb_spec arg "--quality"); [subst arg|];
            [|destruct (String.eqb_spec arg "-r"); [subst arg|];
              [|destruct (String.eqb_spec arg "--recursive"); [subst arg|];
                [|destruct (String.eqb_spec arg "-v"); [subst arg|];
                  [|destruct (String.eqb_spec arg "--verbose"); [subst arg|]]]]]]]]]].

(** A prefix that parses on its own is a sequence of whole tokens: what
    follows it is parsed from the options it leaves. *)
Lemma parse_loop_app (prog : string) (pre l : list string) :
  forall o o1,
    parse_loop prog o pre = Parsed o1 ->
    parse_loop prog o (pre ++ l) = parse_loop prog o1 l.
Proof.
  induction pre as [|arg rest IH1 IH2] using args_ind; intros o o1 H.
  - simpl in H. inversion H; subst. reflexivity.
  - cbn [app]. cbn [parse_loop] in H |- *.
    case_arg arg; cbn [orb] in H |- *; try discriminate;
      try (now apply IH1).
    + destruct rest as [|v rest']; [discriminate|]. cbn [app].
      now apply (IH2 v rest' eq_refl).
    + destruct rest as [|v rest']; [discriminate|]. cbn [app].
      now apply (IH2 v rest' eq_refl).
    + destruct rest as [|v rest']; [discriminate|]. cbn [app].
      destruct (stoi v) as [q|e]; [|discriminate].
      destruct ((q <? 1)%Z || (100 <? q)%Z); [discriminate|].
      now apply (IH2 v rest' eq_refl).
    + destruct rest as [|v rest']; [discriminate|]. cbn [app].
      destruct (stoi v) as [q|e]; [|discriminate].
      destruct ((q <? 1)%Z || (100 <? q)%Z); [discriminate|].
      now apply (IH2 v rest' eq_refl).
    + destruct (starts_with_dash arg); [discriminate|]. now apply IH1.
Qed.

(** What the quality flag does, whatever its value. *)
Lemma parse_loop_quality (prog : string) (o : Options) (flag v : string)
    (rest : list string) :
  flag = "-q" \/ flag = "--quality" ->
  parse_loop prog o (flag :: v :: rest) =
  match stoi v with
  | Val q =>
      if ((q <? 1) || (100 <? q))%Z then ParseExit 1 [QualityOutOfRange]
      else parse_loop prog (set_quality o q) rest
  | Throw e => ParseThrow e
  end.
Proof. intros [->| ->]; reflexivity. Qed.

(** The options [parse_loop] returns hold a quality it was given or one
    it checked. *)
Lemma parse_loop_quality_range (prog : string) (l : list string) :
  forall o o',
    parse_loop prog o l = Parsed o' ->
    (1 <= quality o <= 100)%Z -> (1 <= quality o' <= 100)%Z.
Proof.
  induction l as [|arg rest IH1 IH2] using args_ind; intros o o' H Hq.
  - simpl in H. inversion H; subst. exact Hq.
  - cbn [parse_loop] in H.
    case_arg arg; cbn [orb] in H; try discriminate;
      try (now apply (IH1 _ _ H)).
    + destruct rest as [|v rest']; [discriminate|].
      now apply (IH2 v rest' eq_refl _ _ H).
    + destruct rest as [|v rest']; [discriminate|].
      now apply (IH2 v rest' eq_refl _ _ H).
    + destruct rest as [|v rest']; [discriminate|].
      destruct (stoi v) as [q|e]; [|discriminate].
      destruct ((q <? 1)%Z || (100 <? q)%Z) eqn:E; [discriminate|].
      apply (IH2 v rest' eq_refl _ _ H). simpl. lia.
    + destruct rest as [|v rest']; [discriminate|].
      destruct (stoi v) as [q|e]; [|discriminate].
      destruct ((q <? 1)%Z || (100 <? q)%Z) eqn:E; [discriminate|].
      apply (IH2 v rest' eq_refl _ _ H). simpl. lia.
    + destruct (starts_with_dash arg); [discriminate|].
      now apply (IH1 _ _ H).
Qed.

Lemma main_parse_exit (c : Codec) (prog : string) (args : list string) (w : World)
    (code : Z) (out : list msg) :
  parse_args prog args = ParseExit code out ->
  main c prog args w = mkRun (Exited code) out w [].
Proof.
  intros H. unfold main, startup. destruct args as [|a args]; [discriminate|].
  now rewrite H.
Qed.

Lemma main_parse_throw (c : Codec) (prog : string) (args : list string) (w : World)
    (e : exn) :
  parse_args prog args = ParseThrow e ->
  main c prog args w = mkRun (Terminated e) [] w [].
Proof.
  intros H. unfold main, startup. destruct args as [|a args]; [discriminate|].
  now rewrite H.
Qed.

(** The quality flag after a prefix of whole tokens. *)
Lemma quality_flag_step (prog : string) (pre rest : list string)
    (flag v : string) (o1 : Options) :
  parse_args prog pre = Parsed o1 ->
  flag = "-q" \/ flag = "--quality" ->
  parse_args prog (pre ++ flag :: v :: rest) =
    match stoi v with
    | Val q =>
        if ((q <? 1) || (100 <? q))%Z then ParseExit 1 [QualityOutOfRange]
        else parse_loop prog (set_quality o1 q) rest
    | Throw e => ParseThrow e
    end
  /\ (forall q, stoi v = Val q -> (q < 1 \/ 100 < q)%Z ->
        parse_args prog (pre ++ flag :: v :: rest) = ParseExit 1 [QualityOutOfRange]).
Proof.
  intros Hpre Hflag.
  assert (Hstep : parse_args prog (pre ++ flag :: v :: rest) =
                  match stoi v with
                  | Val q =>
                      if ((q <? 1) || (100 <? q))%Z
                      then ParseExit 1 [QualityOutOfRange]
                      else parse_loop prog (set_quality o1 q) rest
                  | Throw e => ParseThrow e
                  end).
  { unfold parse_args. rewrite (parse_loop_app prog pre _ _ _ Hpre).
    now apply parse_loop_quality. }
  split; [exact Hstep|].
  intros q Hv Hq. rewrite Hstep, Hv.
  replace ((q <? 1) || (100 <? q))%Z with true; [reflexivity|].
  symmetry. apply orb_true_intro.
  destruct Hq; [left | right]; apply Z.ltb_lt; lia.
Qed.

(** C7, what the code does at a quality value that does not fit [int].
    The value [99999999999] is supplied and lies outside 1 to 100.  The
    range check of [parse_args] is written for it, but [std::stoi], which
    comes first, raises [std::out_of_range] and nothing catches it: the
    run ends abnormally, without the message of the configuration error
    and without exit code 1.  The same holds below the range, at
    [-99999999999].  The value [101], which fits [int], takes the path
    the check was written for: the message, and exit code 1. *)
Theorem quality_beyond_int_aborts (c : Codec) (prog : string) (rest : list string)
    (w : World) :
  stoi "99999999999" = Throw out_of_range
  /\ parse_args prog ("/photos" :: "-q" :: "99999999999" :: rest)
     = ParseThrow out_of_range
  /\ main c prog ("/photos" :: "-q" :: "99999999999" :: rest) w
     = mkRun (Terminated out_of_range) [] w []
  /\ main c prog ("/photos" :: "-q" :: "-99999999999" :: rest) w
     = mkRun (Terminated out_of_range) [] w []
  /\ main c prog ("/photos" :: "-q" :: "101" :: rest) w
     = mkRun (Exited 1) [QualityOutOfRange] w [].
Proof.
  split; [reflexivity|]. split; [reflexivity|].
  split; [now apply main_parse_throw|].
  split; [now apply main_parse_throw | now apply main_parse_exit].
Qed.

(** C10. A quality value that [std::stoi] cannot read makes [parse_args]
    raise: the range check and its message are never reached, nothing
    catches the exception, and the process ends abnormally before any
    conversion.  Only a value that reads as an integer outside 1 to 100
    reaches the configuration error at this flag.  ["abc"] raises
    [std::invalid_argument]; a number too large for [int] raises
    [std::out_of_range]. *)
Theorem quality_not_an_integer (c : Codec) (prog : string) (pre rest : list string)
    (flag v : string) (o1 : Options) (w : World) :
  parse_args prog pre = Parsed o1 ->
  flag = "-q" \/ flag = "--quality" ->
  let args := pre ++ flag :: v :: rest in
  (forall e, stoi v = Throw e ->
     parse_args prog args = ParseThrow e
     /\ main c prog args w = mkRun (Terminated e) [] w []
     /\ forall code out, parse_args prog args <> ParseExit code out)
  /\ (forall q, stoi v = Val q ->
        parse_args prog args =
        if ((q <? 1) || (100 <? q))%Z then ParseExit 1 [QualityOutOfRange]
        else parse_loop prog (set_quality o1 q) rest)
  /\ stoi "abc" = Throw invalid_argument
  /\ stoi "99999999999" = Throw out_of_range.
Proof.
  intros Hpre Hflag args.
  destruct (quality_flag_step prog pre rest flag v o1 Hpre Hflag)
    as [Hstep _].
  fold args in Hstep.
  split; [|split; [|split; reflexivity]].
  - intros e Hv. rewrite Hv in Hstep. split; [exact Hstep|].
    split; [now apply main_parse_throw|].
    intros code out. rewrite Hstep. discriminate.
  - intros q Hv. now rewrite Hstep, Hv.
Qed.

Lemma quality_not_an_integer_witness :
  main toy_codec "prog" ["/photos"; "-q"; "abc"] demo_world
  = mkRun (Terminated invalid_argument) [] demo_world [].
Proof.
  refine (proj1 (proj2 (proj1 (quality_not_an_integer toy_codec "prog"
        ["/photos"] [] "-q" "abc" (mkOptions "/photos" "" 85 false false)
        demo_world eq_refl (or_introl eq_refl)) invalid_argument eq_refl))).
Defined.

(** An input set before arguments that hold a positional argument has no
    effect on the outcome of parsing them. *)
Lemma parse_loop_input_overwritten (prog : string) (l : list string) :
  forall o a,
    positionals l <> [] ->
    parse_loop prog (set_input o a) l = parse_loop prog o l.
Proof.
  induction l as [|arg rest IH1 IH2] using args_ind; intros o a H.
  - now elim H.
  - cbn [parse_loop positionals] in H |- *.
    unfold takes_value, is_positional, is_flag in H.
    case_arg arg; cbn [orb andb negb] in H |- *; try reflexivity.
    + destruct rest as [|v rest']; [reflexivity|].
      exact (IH2 v rest' eq_refl (set_output_dir o v) a H).
    + destruct rest as [|v rest']; [reflexivity|].
      exact (IH2 v rest' eq_refl (set_output_dir o v) a H).
    + destruct rest as [|v rest']; [reflexivity|].
      destruct (stoi v) as [q|e]; [|reflexivity].
      destruct ((q <? 1)%Z || (100 <? q)%Z); [reflexivity|].
      exact (IH2 v rest' eq_refl (set_quality o q) a H).
    + destruct rest as [|v rest']; [reflexivity|].
      destruct (stoi v) as [q|e]; [|reflexivity].
      destruct ((q <? 1)%Z || (100 <? q)%Z); [reflexivity|].
      exact (IH2 v rest' eq_refl (set_quality o q) a H).
    + exact (IH1 (set_recursive o) a H).
    + exact (IH1 (set_recursive o) a H).
    + exact (IH1 (set_verbose o) a H).
    + exact (IH1 (set_verbose o) a H).
Qed.

Lemma last_default (x : string) (xs : list string) (d d' : string) :
  last (x :: xs) d = last (x :: xs) d'.
Proof.
  revert x. induction xs as [|y ys IH]; intros x; [reflexivity|].
  change (last (y :: ys) d = last (y :: ys) d'). apply IH.
Qed.

Lemma last_cons (a : string) (l : list string) (d : string) :
  last (a :: l) d = last l a.
Proof.
  destruct l as [|x xs]; [reflexivity|].
  change (last (x :: xs) d = last (x :: xs) a). apply last_default.
Qed.

(** The input that [parse_loop] returns is the last positional argument. *)
Lemma parse_loop_input (prog : string) (l : list string) :
  forall o o',
    parse_loop prog o l = Parsed o' ->
    input o' = last (positionals l) (input o).
Proof.
  induction l as [|arg rest IH1 IH2] using args_ind; intros o o' H.
  - simpl in H. inversion H; subst. reflexivity.
  - cbn [parse_loop positionals] in H |- *.
    unfold takes_value, is_positional, is_flag.
    case_arg arg; cbn [orb andb negb] in H |- *; try discriminate;
      try (exact (IH1 _ _ H)).
    + destruct rest as [|v rest']; [discriminate|].
      exact (IH2 v rest' eq_refl _ _ H).
    + destruct rest as [|v rest']; [discriminate|].
      exact (IH2 v rest' eq_refl _ _ H).
    + destruct rest as [|v rest']; [discriminate|].
      destruct (stoi v) as [q|e]; [|discriminate].
      destruct ((q <? 1)%Z || (100 <? q)%Z); [discriminate|].
      exact (IH2 v rest' eq_refl _ _ H).
    + destruct rest as [|v rest']; [discriminate|].
      destruct (stoi v) as [q|e]; [|discriminate].
      destruct ((q <? 1)%Z || (100 <? q)%Z); [discriminate|].
      exact (IH2 v rest' eq_refl _ _ H).
    + destruct (starts_with_dash arg); [discriminate|]. cbn [negb].
      rewrite (IH1 _ _ H). cbn [input set_input].
      symmetry. apply last_cons.
Qed.

Lemma positional_step (prog : string) (o : Options) (a : string) (l : list string) :
  is_positional a = true ->
  parse_loop prog o (a :: l) = parse_loop prog (set_input o a) l.
Proof.
  unfold is_positional, is_flag. intros H. cbn [parse_loop].
  case_arg a; cbn [orb andb negb] in H |- *; try discriminate.
  destruct (starts_with_dash a); [discriminate | reflexivity].
Qed.

(** C9. A positional argument that is followed, later on the command
    line, by another positional argument is discarded without a trace:
    parsing the command line with it and without it gives the same
    result, options, exit and messages alike; the input that
    [parse_args] returns is the last positional argument. *)
Theorem last_positional_wins (prog : string) (pre l : list string) (a : string)
    (o1 : Options) :
  parse_args prog pre = Parsed o1 ->
  is_positional a = true ->
  positionals l <> [] ->
  parse_args prog (pre ++ a :: l) = parse_args prog (pre ++ l)
  /\ (forall o', parse_args prog (pre ++ a :: l) = Parsed o' ->
        input o' = last (positionals l) "")
  /\ (forall out, parse_args prog (pre ++ a :: l) <> ParseExit 1 (UnknownOption a :: out)).
Proof.
  intros Hpre Ha Hl. unfold parse_args in *.
  assert (E : parse_loop prog default_options (pre ++ a :: l) =
              parse_loop prog o1 l).
  { rewrite (parse_loop_app prog pre _ _ _ Hpre), positional_step by exact Ha.
    now apply parse_loop_input_overwritten. }
  split; [|split].
  - rewrite E. symmetry. now apply parse_loop_app.
  - intros o' H. rewrite E in H. apply parse_loop_input in H. rewrite H.
    destruct (positionals l) as [|x xs]; [now elim Hl|].
    apply last_default.
  - intros out H. rewrite E in H.
    assert (G : forall l o, parse_loop prog o l = ParseExit 1 (UnknownOption a :: out) ->
                            is_positional a = false).
    { clear. intros l.
      induction l as [|arg rest IH1 IH2] using args_ind; intros o H.
      - discriminate.
      - cbn [parse_loop] in H.
        case_arg arg; cbn [orb] in H; try discriminate;
          try (exact (IH1 _ H)).
        + destruct rest as [|v rest']; [discriminate|].
          exact (IH2 v rest' eq_refl _ H).
        + destruct rest as [|v rest']; [discriminate|].
          exact (IH2 v rest' eq_refl _ H).
        + destruct rest as [|v rest']; [discriminate|].
          destruct (stoi v) as [q|e]; [|discriminate].
          destruct ((q <? 1)%Z || (100 <? q)%Z); [discriminate|].
          exact (IH2 v rest' eq_refl _ H).
        + destruct rest as [|v rest']; [discriminate|].
          destruct (stoi v) as [q|e]; [|discriminate].
          destruct ((q <? 1)%Z || (100 <? q)%Z); [discriminate|].
          exact (IH2 v rest' eq_refl _ H).
        + destruct (starts_with_dash arg) eqn:D; [|exact (IH1 _ H)].
          inversion H; subst. unfold is_positional. rewrite D.
          now rewrite andb_false_r. }
    apply G in H. congruence.
Qed.

Lemma last_positional_wins_witness :
  parse_args "prog" ["-v"; "first.heic"; "-q"; "50"; "second.heic"; "-r"]
  = parse_args "prog" ["-v"; "-q"; "50"; "second.heic"; "-r"]
  /\ parse_args "prog" ["-v"; "first.heic"; "-q"; "50"; "second.heic"; "-r"]
     = Parsed (mkOptions "second.heic" "" 50 true true).
Proof.
  split; [|reflexivity].
  refine (proj1 (last_positional_wins "prog" ["-v"] ["-q"; "50"; "second.heic"; "-r"]
                   "first.heic" (mkOptions "" "" 85 false true) eq_refl eq_refl _)).
  discriminate.
Defined.

(* ================================================================= *)
(** ** The file system *)

Lemma assoc_set_same (name : string) (v : node) (es : list (string * node)) :
  assoc name (assoc_set name v es) = Some v.
Proof.
  induction es as [|[n x] es IH]; simpl.
  - now rewrite String.eqb_refl.
  - destruct (String.eqb_spec n name) as [->|Hn]; simpl.
    + now rewrite String.eqb_refl.
    + destruct (String.eqb_spec n name); [contradiction | exact IH].
Qed.

Lemma assoc_set_other (name n' : string) (v : node) (es : list (string * node)) :
  n' <> name -> assoc n' (assoc_set name v es) = assoc n' es.
Proof.
  intros Hn. induction es as [|[n x] es IH]; simpl.
  - destruct (String.eqb_spec name n'); [congruence | reflexivity].
  - destruct (String.eqb_spec n name) as [->|Hne]; simpl.
    + destruct (String.eqb_spec name n'); [congruence | reflexivity].
    + destruct (String.eqb_spec n n'); [reflexivity | exact IH].
Qed.

Lemma get_leaf (v : node) (x : string) (xs : key) :
  leaf v = true -> get v (x :: xs) = None.
Proof. destruct v as [d|[|e es]]; simpl; [reflexivity | reflexivity | discriminate]. Qed.

Lemma is_dir_shape (o : option node) :
  is_dir o = match shape_of o with IsDir => true | _ => false end.
Proof. destruct o as [[d|es]|]; reflexivity. Qed.

(** Writing a leaf where no directory stands changes what is at that key
    and nothing else. *)
Lemma put_shape (v : node) (k : key) :
  leaf v = true ->
  forall r r' k',
    put r k v = Some r' ->
    shape_of (get r k) <> IsDir ->
    (k' = k -> shape_of (get r' k') = shape_of (Some v))
    /\ (k' <> k -> shape_of (get r' k') = shape_of (get r k')).
Proof.
  intros Hv. induction k as [|name ks IH]; intros r r' k' Hput Hs.
  - simpl in Hput. inversion Hput; subst r'. split.
    + intros ->. reflexivity.
    + intros Hk. destruct k' as [|x xs]; [congruence|].
      rewrite get_leaf by exact Hv.
      simpl in Hs. destruct r as [d|es]; [reflexivity | now elim Hs].
  - destruct r as [d|es]; [discriminate|]. simpl in Hput, Hs.
    destruct (assoc name es) as [child|] eqn:Ea.
    + destruct (put child ks v) as [child'|] eqn:Ep; [|discriminate].
      inversion Hput; subst r'. specialize (IH child child').
      split.
      * intros ->. simpl. rewrite assoc_set_same.
        now apply (IH ks Ep Hs).
      * intros Hk. destruct k' as [|n' ks']; [reflexivity|]. simpl.
        destruct (string_dec n' name) as [->|Hn].
        -- rewrite assoc_set_same, Ea.
           apply (IH ks' Ep Hs). congruence.
        -- now rewrite assoc_set_other.
    + destruct ks as [|y ys]; [|discriminate].
      inversion Hput; subst r'. split.
      * intros ->. simpl. now rewrite assoc_set_same.
      * intros Hk. destruct k' as [|n' ks']; [reflexivity|]. simpl.
        destruct (string_dec n' name) as [->|Hn].
        -- rewrite assoc_set_same, Ea.
           destruct ks' as [|z zs]; [congruence|].
           now rewrite get_leaf.
        -- now rewrite assoc_set_other.
Qed.

Lemma put_exists (v : node) (k : key) :
  forall r, shape_of (get r k) <> Absent -> exists r', put r k v = Some r'.
Proof.
  induction k as [|name ks IH]; intros r Hs.
  - now exists v.
  - destruct r as [d|es]; [now elim Hs|]. simpl in Hs |- *.
    destruct (assoc name es) as [child|]; [|now elim Hs].
    destruct (IH child Hs) as [child' ->]. eauto.
Qed.

(** Resolution only asks which keys are directories. *)
Lemma resolve_from_ext (r r' : node) (comps : list string) :
  (forall k, is_dir (get r' k) = is_dir (get r k)) ->
  forall cur, resolve_from r' cur comps = resolve_from r cur comps.
Proof.
  intros H. induction comps as [|c cs IH]; intros cur; [reflexivity|].
  simpl. rewrite H. destruct (is_dir (get r cur)); [|reflexivity].
  now rewrite !IH.
Qed.

Lemma shape_is_file (o : option node) (d : list byte) :
  shape_of o = IsFile d <-> o = Some (File d).
Proof.
  destruct o as [[d'|es]|]; simpl; split; intros H;
    try discriminate; inversion H; reflexivity.
Qed.

(** What changes, and what does not, between a world and the world in
    which a regular file has been written at a key. *)
Section FileWritten.

Variables w w' : World.
Variable k : key.
Variable d : list byte.
Hypothesis Hfw : file_written w w' k d.

Lemma file_written_get (k' : key) :
  shape_of (get (root w') k') =
  if list_eq_dec string_dec k' k then IsFile d else shape_of (get (root w) k').
Proof.
  destruct Hfw as (_ & Hp & Hs).
  destruct (put_shape (File d) k eq_refl (root w) (root w') k' Hp Hs) as [H1 H2].
  destruct (list_eq_dec string_dec k' k); [now apply H1 | now apply H2].
Qed.

Lemma file_written_at : get (root w') k = Some (File d).
Proof.
  apply shape_is_file. rewrite file_written_get.
  destruct (list_eq_dec string_dec k k); [reflexivity | congruence].
Qed.

Lemma file_written_resolve (p : path) : resolve w' p = resolve w p.
Proof.
  destruct Hfw as (Hc & Hp & Hs).
  unfold resolve. destruct p as [|a p']; [reflexivity|]. rewrite Hc.
  apply resolve_from_ext. intros k'. rewrite !is_dir_shape.
  rewrite file_written_get.
  destruct (list_eq_dec string_dec k' k) as [->|]; [|reflexivity].
  destruct (shape_of (get (root w) k)); [reflexivity | reflexivity | now elim Hs].
Qed.

Lemma file_written_stat (p : path) :
  shape_of (stat w' p) =
  match resolve w p with
  | Some k' => if list_eq_dec string_dec k' k then IsFile d
               else shape_of (stat w p)
  | None => Absent
  end.
Proof.
  unfold stat. rewrite file_written_resolve.
  destruct (resolve w p) as [k'|]; [|reflexivity].
  apply file_written_get.
Qed.

Lemma file_written_regular (p : path) :
  regular (shape_of (stat w p)) -> regular (shape_of (stat w' p)).
Proof.
  intros Hr. rewrite file_written_stat. unfold stat in *.
  destruct (resolve w p) as [k'|]; [|exact Hr].
  destruct (list_eq_dec string_dec k' k); [exact I | exact Hr].
Qed.

End FileWritten.

(** What a successful open does. *)
Lemma ofstream_open_some (w w1 : World) (p : path) (k : key) :
  ofstream_open w p = Some (k, w1) ->
  resolve w p = Some k
  /\ file_written w w1 k []
  /\ free_space w1 = free_space w
                     + match get (root w) k with
                       | Some (File old) => length old
                       | _ => 0
                       end.
Proof.
  unfold ofstream_open, file_written. intros H.
  destruct (resolve w p) as [k0|]; [|discriminate].
  destruct (get (root w) k0) as [[old|es]|] eqn:Eg; try discriminate;
    destruct (put (root w) k0 (File [])) as [r'|] eqn:Ep; try discriminate;
    inversion H; subst; simpl; rewrite Eg; simpl;
    repeat split; try assumption; try discriminate; lia.
Qed.

(** What the write does to a file that is open. *)
Lemma ofstream_write_open (w1 : World) (k : key) (data old : list byte) :
  get (root w1) k = Some (File old) ->
  let w2 := snd (ofstream_write w1 k data) in
  let n := Nat.min (length data) (free_space w1) in
  file_written w1 w2 k (firstn n data)
  /\ fst (ofstream_write w1 k data) = (length data <=? free_space w1)%nat
  /\ free_space w2 = free_space w1 - n.
Proof.
  intros Hg. unfold ofstream_write, file_written.
  destruct (put_exists (File (firstn (Nat.min (length data) (free_space w1)) data))
              k (root w1)) as [r' Hp].
  { rewrite Hg. discriminate. }
  rewrite Hp. simpl. repeat split; try assumption.
  rewrite Hg. discriminate.
Qed.

(* ================================================================= *)
(** ** One conversion *)

Lemma read_is_regular (c : Codec) (w : World) (p : path) (ctx : heif_ctx c) :
  heif_context_read_from_file c w p = Some ctx -> regular (shape_of (stat w p)).
Proof.
  unfold heif_context_read_from_file.
  destruct (stat w p) as [[d|es]|]; [intros _; exact I | discriminate | discriminate].
Qed.

Lemma file_size_regular (w : World) (p : path) :
  regular (shape_of (stat w p)) -> exists n, file_size w p = Val n.
Proof.
  unfold file_size. destruct (stat w p) as [[d|es]|]; simpl; [eauto | tauto | tauto].
Qed.

(** The file that [ofstream_open] returns is there and empty. *)
Lemma ofstream_open_file (w w1 : World) (p : path) (k : key) :
  ofstream_open w p = Some (k, w1) -> get (root w1) k = Some (File []).
Proof.
  intros H. apply ofstream_open_some in H. destruct H as (_ & Hw & _).
  apply shape_is_file. rewrite (file_written_get _ _ _ _ Hw).
  destruct (list_eq_dec string_dec k k); [reflexivity | congruence].
Qed.

(** [convert_heic_to_webp] always returns: the file whose size the
    verbose report asks for was read before and is still a regular file.
    It returns the flag and the world of [conversion], and no line that
    closes a report. *)
Lemma convert_heic_to_webp_returns (c : Codec) (source destination : path)
    (opts : Options) (w : World) :
  exists lines,
    convert_heic_to_webp c source destination opts w =
      Val (fst (conversion c source destination opts w), lines,
           snd (conversion c source destination opts w))
    /\ filter is_report lines = [].
Proof.
  unfold convert_heic_to_webp, conversion, decoded, encoded.
  destruct (heif_context_read_from_file c w source) as [ctx|] eqn:Er.
  2:{ eexists; split; [reflexivity|]. destruct (verbose opts); reflexivity. }
  destruct (heif_context_get_primary_image_handle c ctx) as [handle|].
  2:{ eexists; split; [reflexivity|]. destruct (verbose opts); reflexivity. }
  destruct (heif_decode_image c handle) as [img|].
  2:{ eexists; split; [reflexivity|]. destruct (verbose opts); reflexivity. }
  destruct (WebPEncodeRGB c (img_rgb img) (img_width img) (img_height img)
              (img_stride img) (quality opts)) as [|b data] eqn:Ee.
  { eexists; split; [reflexivity|]. destruct (verbose opts); reflexivity. }
  cbn [length Nat.eqb].
  destruct (ofstream_open w destination) as [[k w1]|] eqn:Eo.
  2:{ eexists; split; [reflexivity|]. destruct (verbose opts); reflexivity. }
  destruct (verbose opts); [|eexists; split; reflexivity].
  pose proof (ofstream_open_some _ _ _ _ Eo) as (_ & Hw1 & _).
  pose proof (ofstream_write_open w1 k (b :: data) [] (ofstream_open_file _ _ _ _ Eo))
    as (Hw2 & _).
  destruct (file_size_regular (snd (ofstream_write w1 k (b :: data))) source)
    as [n ->].
  { eapply file_written_regular; [exact Hw2|].
    eapply file_written_regular; [exact Hw1|].
    eapply read_is_regular; exact Er. }
  eexists; split; reflexivity.
Qed.

(* ================================================================= *)
(** ** The batch loop *)

Lemma filter_app_report (a b : list msg) :
  filter is_report (a ++ b) = filter is_report a ++ filter is_report b.
Proof. apply filter_app. Qed.

Lemma successes_app (a b : list call) : successes (a ++ b) = successes a + successes b.
Proof. unfold successes. now rewrite filter_app, length_app. Qed.

Lemma failures_app (a b : list call) : failures (a ++ b) = failures a + failures b.
Proof. unfold failures. now rewrite filter_app, length_app. Qed.

Lemma successes_failures (l : list call) : successes l + failures l = length l.
Proof.
  unfold successes, failures. induction l as [|x l IH]; [reflexivity|].
  simpl. destruct (call_ok x); simpl; lia.
Qed.

Section Batch.

Variable c : Codec.
Variable opts : Options.

Lemma convert_one_returns (file : path) (st : batch) :
  let destination := get_output_path file (output_dir opts) in
  let r := conversion c file destination opts (batch_world st) in
  let x := mkCall file destination (fst r) in
  exists st',
    convert_one c opts file st = Val st'
    /\ batch_world st' = snd r
    /\ batch_calls st' = batch_calls st ++ [x]
    /\ success_count st' = (success_count st + Z.of_nat (successes [x]))%Z
    /\ error_count st' = (error_count st + Z.of_nat (failures [x]))%Z
    /\ filter is_report (batch_out st') =
       filter is_report (batch_out st) ++ [report opts x].
Proof.
  intros destination r x. unfold convert_one. cbv zeta.
  destruct (convert_heic_to_webp_returns c file destination opts (batch_world st))
    as (lines & E & Hl).
  fold destination. rewrite E. fold r. subst x.
  unfold report, successes, failures.
  destruct (fst r); eexists; (split; [reflexivity|]); cbn;
    rewrite !filter_app_report, Hl; cbn;
    repeat split; try lia; destruct (verbose opts); reflexivity.
Qed.

(** The loop runs to its end over any list of files, from any state. *)
Lemma convert_all_returns (files : list path) :
  forall st,
    let trace := batch_trace c opts files (batch_world st) in
    exists st',
      convert_all c opts files st = Val st'
      /\ batch_world st' = batch_end c opts files (batch_world st)
      /\ batch_calls st' = batch_calls st ++ trace
      /\ success_count st' = (success_count st + Z.of_nat (successes trace))%Z
      /\ error_count st' = (error_count st + Z.of_nat (failures trace))%Z
      /\ filter is_report (batch_out st') =
         filter is_report (batch_out st) ++ map (report opts) trace.
Proof.
  induction files as [|file rest IH]; intros st trace.
  - exists st. subst trace. simpl. rewrite !app_nil_r.
    repeat split; try reflexivity; lia.
  - destruct (convert_one_returns file st)
      as (st1 & E1 & Hw & Hc & Hs & He & Ho).
    destruct (IH st1) as (st' & E' & Hw' & Hc' & Hs' & He' & Ho').
    exists st'. cbn [convert_all]. rewrite E1.
    split; [exact E'|]. subst trace. cbn [batch_trace batch_end].
    rewrite Hw in *.
    set (x := mkCall file (get_output_path file (output_dir opts))
                (fst (conversion c file (get_output_path file (output_dir opts))
                        opts (batch_world st)))) in *.
    set (tr := batch_trace c opts rest _) in *.
    split; [exact Hw'|].
    split; [rewrite Hc', Hc, <- app_assoc; reflexivity|].
    split; [rewrite Hs', Hs; change (x :: tr) with ([x] ++ tr);
            rewrite successes_app; lia|].
    split; [rewrite He', He; change (x :: tr) with ([x] ++ tr);
            rewrite failures_app; lia|].
    rewrite Ho', Ho, <- app_assoc. reflexivity.
Qed.

Lemma batch_trace_sources (files : list path) :
  forall w,
    map call_source (batch_trace c opts files w) = files
    /\ map call_destination (batch_trace c opts files w) =
       map (fun f => get_output_path f (output_dir opts)) files.
Proof.
  induction files as [|file rest IH]; intros w; [split; reflexivity|].
  cbn [batch_trace map call_source call_destination].
  destruct (IH (snd (conversion c file (get_output_path file (output_dir opts)) opts w)))
    as [-> ->].
  split; reflexivity.
Qed.

(** What [run_batch] returns, in terms of the trace of its conversions. *)
Lemma run_batch_returns (files : list path) (w : World) (out : list msg) :
  let trace := batch_trace c opts files w in
  exists st,
    convert_all c opts files (batch_start w out) = Val st
    /\ success_count st = Z.of_nat (successes trace)
    /\ error_count st = Z.of_nat (failures trace)
    /\ filter is_report (batch_out st) = filter is_report out ++ map (report opts) trace
    /\ run_batch c opts files w out =
       mkRun (Exited (if (0 <? Z.of_nat (failures trace))%Z then 1 else 0))
             (batch_out st ++ [Summary (success_count st) (length files)])
             (batch_end c opts files w) trace.
Proof.
  intros trace.
  destruct (convert_all_returns files (batch_start w out))
    as (st & E & Hw & Hc & Hs & He & Ho).
  cbn [batch_start batch_world batch_calls success_count error_count batch_out app]
    in Hw, Hc, Hs, He, Ho.
  fold trace in Hc, Hs, He, Ho.
  exists st. split; [exact E|]. split; [lia|]. split; [lia|]. split; [exact Ho|].
  unfold run_batch. rewrite E, He, Hw, Hc. reflexivity.
Qed.

Lemma batch_trace_length (files : list path) (w : World) :
  length (batch_trace c opts files w) = length files.
Proof.
  rewrite <- (proj1 (batch_trace_sources files w)) at 2.
  now rewrite length_map.
Qed.


End Batch.


(* ================================================================= *)
(** ** Creating the output directory *)

(** [fs::create_directories] only adds directories where nothing was:
    whatever existed keeps its place and its content. *)
Lemma mkdirs_from_keeps (comps : list string) :
  forall r cur r',
    mkdirs_from r cur comps = Some r' ->
    forall k, shape_of (get r k) <> Absent ->
              shape_of (get r' k) = shape_of (get r k).
Proof.
  induction comps as [|c cs IH]; intros r cur r' H k Hk.
  - simpl in H. now inversion H.
  - simpl in H. destruct (is_dir (get r cur)); [|discriminate].
    destruct (String.eqb c "" || String.eqb c "."); [now apply (IH _ _ _ H)|].
    destruct (String.eqb c ".."); [now apply (IH _ _ _ H)|].
    destruct (NAME_MAX <? String.length c)%nat; [discriminate|].
    destruct (get r (cur ++ [c])) as [[d|es]|] eqn:Eg;
      [discriminate | now apply (IH _ _ _ H) |].
    destruct (put r (cur ++ [c]) (Dir [])) as [r1|] eqn:Ep; [|discriminate].
    assert (Hs : shape_of (get r (cur ++ [c])) <> IsDir) by (rewrite Eg; discriminate).
    destruct (put_shape (Dir []) (cur ++ [c]) eq_refl r r1 k Ep Hs) as [_ H2].
    assert (Hne : k <> cur ++ [c]).
    { intros ->. rewrite Eg in Hk. now elim Hk. }
    rewrite <- (H2 Hne). apply (IH _ _ _ H). now rewrite (H2 Hne).
Qed.

Lemma resolve_from_mono (r r' : node) (comps : list string) :
  (forall k, shape_of (get r k) <> Absent ->
             shape_of (get r' k) = shape_of (get r k)) ->
  forall cur k,
    resolve_from r cur comps = Some k -> resolve_from r' cur comps = Some k.
Proof.
  intros Hk. induction comps as [|c cs IH]; intros cur k H; [exact H|].
  simpl in H |- *. destruct (is_dir (get r cur)) eqn:Ed; [|discriminate].
  assert (Ed' : is_dir (get r' cur) = true).
  { rewrite is_dir_shape in Ed |- *. rewrite Hk; [exact Ed|].
    destruct (shape_of (get r cur)); [discriminate | discriminate | discriminate]. }
  rewrite Ed'.
  destruct (String.eqb c "" || String.eqb c "."); [now apply IH|].
  destruct (String.eqb c ".."); now apply IH.
Qed.

Lemma create_directories_keeps (w w' : World) (p q : path) :
  create_directories w p = Val w' ->
  shape_of (stat w q) <> Absent ->
  shape_of (stat w' q) = shape_of (stat w q).
Proof.
  unfold create_directories. destruct p as [|a p]; [discriminate|].
  destruct (PATH_MAX <=? String.length (String a p))%nat; [discriminate|].
  destruct (mkdirs_from (root w) _ _) as [r'|] eqn:Em; [|discriminate].
  intros H Hq. inversion H; subst w'. clear H.
  pose proof (mkdirs_from_keeps _ _ _ _ Em) as Hk.
  unfold stat, resolve in *. cbn [root cwd].
  destruct q as [|b q]; [reflexivity|].
  destruct (resolve_from (root w) _ (split_slash (String b q))) as [k|] eqn:Er;
    [|now elim Hq].
  rewrite (resolve_from_mono _ _ _ Hk _ _ Er). now apply Hk.
Qed.

(* ================================================================= *)
(** ** main *)

Lemma startup_ends (prog : string) (args : list string) (w : World) (r : run) :
  startup prog args w = inl r -> conversions r = [] /\ final_world r = w.
Proof.
  unfold startup. destruct args as [|a args].
  { intros H. inversion H. split; reflexivity. }
  destruct (parse_args prog (a :: args)) as [opts|code out|e];
    try (intros H; inversion H; split; reflexivity).
  destruct (input opts); [intros H; inversion H; split; reflexivity|].
  destruct (fs_exists w _) as [[|]|e];
    try (intros H; inversion H; split; reflexivity).
  destruct (output_dir opts); [discriminate|].
  destruct (create_directories w _); [discriminate|].
  intros H; inversion H; split; reflexivity.
Qed.

(** What [startup] has checked when the batch goes on. *)
Lemma startup_goes_on (prog : string) (args : list string) (w w' : World)
    (opts : Options) (input_path : path) :
  startup prog args w = inr (opts, input_path, w') ->
  parse_args prog args = Parsed opts
  /\ input opts <> ""
  /\ input_path = absolute w (input opts)
  /\ fs_exists w input_path = Val true
  /\ (output_dir opts = "" /\ w' = w
      \/ output_dir opts <> "" /\ create_directories w (output_dir opts) = Val w').
Proof.
  unfold startup. destruct args as [|a args]; [discriminate|].
  destruct (parse_args prog (a :: args)) as [o|code out|e]; try discriminate.
  destruct (input o) eqn:Ei; [discriminate|].
  destruct (fs_exists w (absolute w (String a0 s))) as [[|]|e] eqn:Ee;
    try discriminate.
  destruct (output_dir o) eqn:Eo.
  - intros H. inversion H; subst. rewrite Ei, Eo.
    repeat split; try discriminate; try assumption. now left.
  - destruct (create_directories w (String a1 s0)) eqn:Ec; [|discriminate].
    intros H. inversion H; subst. rewrite Ei, Eo.
    repeat split; try discriminate; try assumption. right. split; [discriminate|assumption].
Qed.

(** A regular file is still one, and no directory, after [startup]. *)
Lemma startup_keeps_file (prog : string) (args : list string) (w w' : World)
    (opts : Options) (input_path : path) :
  startup prog args w = inr (opts, input_path, w') ->
  is_regular_file w input_path = true ->
  is_regular_file w' input_path = true /\ is_directory w' input_path = false.
Proof.
  intros H Hf. apply startup_goes_on in H.
  destruct H as (_ & _ & _ & _ & [[_ ->]|[_ Hc]]).
  - unfold is_directory, is_regular_file in *.
    destruct (stat w input_path) as [[d|es]|]; try discriminate. split; reflexivity.
  - assert (Hs : shape_of (stat w' input_path) = shape_of (stat w input_path)).
    { apply (create_directories_keeps _ _ _ _ Hc).
      unfold is_regular_file in Hf.
      destruct (stat w input_path) as [[d|es]|]; discriminate. }
    unfold is_directory, is_regular_file in *.
    destruct (stat w input_path) as [[d|es]|]; try discriminate.
    simpl in Hs. apply shape_is_file in Hs. rewrite Hs. split; reflexivity.
Qed.

Lemma run_batch_status (c : Codec) (opts : Options) (files : list path)
    (w : World) (out : list msg) :
  let r := run_batch c opts files w out in
  conversions r = batch_trace c opts files w
  /\ final_world r = batch_end c opts files w
  /\ status r = Exited (if (0 <? Z.of_nat (failures (conversions r)))%Z then 1 else 0).
Proof.
  intros r. destruct (run_batch_returns c opts files w out) as (st & _ & _ & _ & _ & Hr).
  fold r in Hr. rewrite Hr. repeat split.
Qed.

(** [main] from the file list on: no source file in a directory, or a
    batch. *)
Lemma main_files_cases (c : Codec) (opts : Options) (input_path : path) (w : World) :
  let r := main_files c opts input_path w in
  conversions r = []
  \/ exists files out, r = run_batch c opts files w out.
Proof.
  intros r. subst r. unfold main_files.
  destruct (is_directory w input_path); [|right; eauto].
  destruct (find_heic_files w input_path (recursive opts)) as [[|f fs]|e];
    [left; reflexivity | right; eauto | left; reflexivity].
Qed.

Lemma main_cases (c : Codec) (prog : string) (args : list string) (w : World) :
  let r := main c prog args w in
  conversions r = []
  \/ exists opts files w' out, r = run_batch c opts files w' out.
Proof.
  intros r. subst r. unfold main.
  destruct (startup prog args w) as [r|[[opts input_path] w']] eqn:Es.
  - left. now apply startup_ends in Es.
  - destruct (main_files_cases c opts input_path w') as [H|(files & out & H)];
      [now left | right; eauto].
Qed.

Lemma main_startup_ends (c : Codec) (prog : string) (args : list string) (w : World)
    (r : run) :
  startup prog args w = inl r -> main c prog args w = r.
Proof. intros H. unfold main. now rewrite H. Qed.

Lemma parse_loop_help (prog : string) (o : Options) (flag : string) (rest : list string) :
  flag = "-h" \/ flag = "--help" ->
  parse_loop prog o (flag :: rest) = ParseExit 0 [Usage prog].
Proof. intros [->| ->]; reflexivity. Qed.

(** [parse_args] exits with 0 or with 1. *)
Lemma parse_loop_exits_0_or_1 (prog : string) (l : list string) :
  forall o code out,
    parse_loop prog o l = ParseExit code out -> code = 0%Z \/ code = 1%Z.
Proof.
  induction l as [|arg rest IH1 IH2] using args_ind; intros o code out H.
  - discriminate.
  - cbn [parse_loop] in H.
    case_arg arg; cbn [orb] in H;
      try (inversion H; now left); try (exact (IH1 _ _ _ H)).
    + destruct rest as [|v rest']; [inversion H; now right|].
      exact (IH2 v rest' eq_refl _ _ _ H).
    + destruct rest as [|v rest']; [inversion H; now right|].
      exact (IH2 v rest' eq_refl _ _ _ H).
    + destruct rest as [|v rest']; [inversion H; now right|].
      destruct (stoi v) as [q|e]; [|discriminate].
      destruct ((q <? 1)%Z || (100 <? q)%Z); [inversion H; now right|].
      exact (IH2 v rest' eq_refl _ _ _ H).
    + destruct rest as [|v rest']; [inversion H; now right|].
      destruct (stoi v) as [q|e]; [|discriminate].
      destruct ((q <? 1)%Z || (100 <? q)%Z); [inversion H; now right|].
      exact (IH2 v rest' eq_refl _ _ _ H).
    + destruct (starts_with_dash arg); [inversion H; now right|].
      exact (IH1 _ _ _ H).
Qed.

(** The claim of C2 as the specification states it fails: a command line
    that holds only the help flag gives no input argument and exits
    with 0. *)
Lemma exit_code_counterexample :
  ~ (forall (c : Codec) (prog : string) (args : list string) (w : World),
       positionals args = [] -> status (main c prog args w) = Exited 1).
Proof.
  intros H. specialize (H toy_codec "prog" ["-h"] demo_world eq_refl).
  discriminate H.
Qed.

(** C2, amended.  The process exits with 0 when conversions were
    attempted and all succeeded, and when the input is a directory in
    which no source file is found; it exits with 1 when a conversion
    fails, when there is no argument at all, when [parse_args] returns
    without an input or with an input path that [fs::exists] reports as
    missing, when the command line holds no positional argument and
    [parse_args] neither stops at a help flag nor raises, and when
    [parse_args] reaches a quality value that reads as an integer outside
    1 to 100.  A help flag that [parse_args] reaches exits with 0,
    whatever else the command line holds. *)
Theorem exit_code (c : Codec) (prog : string) (args : list string) (w : World) :
  let r := main c prog args w in
  (conversions r <> [] -> failures (conversions r) = 0 -> status r = Exited 0)
  /\ (forall opts input_path w',
        startup prog args w = inr (opts, input_path, w') ->
        is_directory w' input_path = true ->
        find_heic_files w' input_path (recursive opts) = Val [] ->
        status r = Exited 0 /\ conversions r = [])
  /\ (0 < failures (conversions r) -> status r = Exited 1)
  /\ (args = [] -> status r = Exited 1)
  /\ (forall opts, parse_args prog args = Parsed opts -> input opts = "" ->
        status r = Exited 1)
  /\ (forall opts, parse_args prog args = Parsed opts -> input opts <> "" ->
        fs_exists w (absolute w (input opts)) = Val false -> status r = Exited 1)
  /\ (positionals args = [] ->
      (forall out, parse_args prog args <> ParseExit 0 out) ->
      (forall e, parse_args prog args <> ParseThrow e) ->
      status r = Exited 1)
  /\ (forall pre flag v rest o1 q,
        args = pre ++ flag :: v :: rest ->
        parse_args prog pre = Parsed o1 ->
        flag = "-q" \/ flag = "--quality" ->
        stoi v = Val q -> (q < 1 \/ 100 < q)%Z ->
        status r = Exited 1)
  /\ (forall pre flag rest o1,
        args = pre ++ flag :: rest ->
        parse_args prog pre = Parsed o1 ->
        flag = "-h" \/ flag = "--help" ->
        status r = Exited 0).
Proof.
  intros r.
  assert (Hbatch : conversions r = [] \/
                   status r = Exited (if (0 <? Z.of_nat (failures (conversions r)))%Z
                                      then 1 else 0)).
  { destruct (main_cases c prog args w) as [H|(opts & files & w' & out & H)];
      [now left | right].
    fold r in H. rewrite H. apply run_batch_status. }
  split; [|split; [|split; [|split; [|split; [|split; [|split; [|split]]]]]]].
  - intros Hne Hf. destruct Hbatch as [H|H]; [contradiction|].
    rewrite H, Hf. reflexivity.
  - intros opts input_path w' Hs Hd Hfind. subst r. unfold main. rewrite Hs.
    unfold main_files. rewrite Hd, Hfind. split; reflexivity.
  - intros Hf. destruct Hbatch as [H|H].
    + rewrite H in Hf. cbn in Hf. lia.
    + rewrite H. destruct (0 <? Z.of_nat (failures (conversions r)))%Z eqn:E;
        [reflexivity|]. apply Z.ltb_ge in E. lia.
  - intros ->. reflexivity.
  - intros opts Hp Hi. subst r. unfold main, startup.
    destruct args as [|a args]; [reflexivity|]. now rewrite Hp, Hi.
  - intros opts Hp Hi He. subst r. unfold main, startup.
    destruct args as [|a args];
      [unfold parse_args in Hp; simpl in Hp; inversion Hp; subst; now elim Hi|].
    rewrite Hp. destruct (input opts); [now elim Hi|]. now rewrite He.
  - intros Hpos Hhelp Hthrow. subst r. unfold main, startup.
    destruct args as [|a args]; [reflexivity|].
    destruct (parse_args prog (a :: args)) as [o|code out|e] eqn:Hp.
    + pose proof (parse_loop_input prog _ _ _ Hp) as Hi. rewrite Hpos in Hi.
      cbn in Hi. now rewrite Hi.
    + destruct (parse_loop_exits_0_or_1 prog _ _ _ _ Hp) as [->| ->];
        [now elim (Hhelp out) | reflexivity].
    + now elim (Hthrow e).
  - intros pre flag v rest o1 q -> Hpre Hflag Hv Hq. subst r.
    destruct (quality_flag_step prog pre rest flag v o1 Hpre Hflag) as [_ H].
    rewrite (main_parse_exit c prog _ w 1 [QualityOutOfRange]); [reflexivity|].
    now apply (H q).
  - intros pre flag rest o1 -> Hpre Hflag. subst r.
    rewrite (main_parse_exit c prog _ w 0 [Usage prog]); [reflexivity|].
    unfold parse_args in *. rewrite (parse_loop_app prog pre _ _ _ Hpre).
    now apply parse_loop_help.
Qed.

Lemma exit_code_witness :
  status (main toy_codec "prog" ["/photos"; "-o"; "out"] demo_world) = Exited 0
  /\ status (main toy_codec "prog" ["/empty"] demo_world) = Exited 0
  /\ status (main toy_codec "prog" ["/broken.heic"] demo_world) = Exited 1
  /\ status (main toy_codec "prog" ["-v"] demo_world) = Exited 1
  /\ status (main toy_codec "prog" ["/nowhere"] demo_world) = Exited 1
  /\ status (main toy_codec "prog" ["/photos"; "-q"; "0"] demo_world) = Exited 1
  /\ status (main toy_codec "prog" ["/nowhere"; "-q"; "0"; "--help"] demo_world) = Exited 1
  /\ status (main toy_codec "prog" ["/nowhere"; "--help"; "-q"; "0"] demo_world) = Exited 0.
Proof.
  split.
  { apply (exit_code toy_codec "prog" ["/photos"; "-o"; "out"] demo_world);
      [discriminate | reflexivity]. }
  split.
  { eapply (proj1 (proj2 (exit_code toy_codec "prog" ["/empty"] demo_world)));
      reflexivity. }
  split.
  { apply (proj1 (proj2 (proj2 (exit_code toy_codec "prog" ["/broken.heic"] demo_world)))).
    vm_compute. constructor. }
  split.
  { apply (proj1 (proj2 (proj2 (proj2 (proj2 (proj2 (proj2
       (exit_code toy_codec "prog" ["-v"] demo_world))))))));
      [reflexivity | discriminate | discriminate]. }
  split.
  { eapply (proj1 (proj2 (proj2 (proj2 (proj2 (proj2
       (exit_code toy_codec "prog" ["/nowhere"] demo_world)))))));
      [reflexivity | discriminate | reflexivity]. }
  split.
  { eapply (proj1 (proj2 (proj2 (proj2 (proj2 (proj2 (proj2 (proj2
       (exit_code toy_codec "prog" ["/photos"; "-q"; "0"] demo_world)))))))))
      with (pre := ["/photos"]) (q := 0%Z);
      [reflexivity | reflexivity | now left | reflexivity | lia]. }
  split.
  { eapply (proj1 (proj2 (proj2 (proj2 (proj2 (proj2 (proj2 (proj2
       (exit_code toy_codec "prog" ["/nowhere"; "-q"; "0"; "--help"] demo_world)))))))))
      with (pre := ["/nowhere"]) (q := 0%Z);
      [reflexivity | reflexivity | now left | reflexivity | lia]. }
  eapply (proj2 (proj2 (proj2 (proj2 (proj2 (proj2 (proj2 (proj2
       (exit_code toy_codec "prog" ["/nowhere"; "--help"; "-q"; "0"] demo_world)))))))))
      with (pre := ["/nowhere"]); [reflexivity | reflexivity | now right].
Defined.

(** The claim of C3 as the specification states it fails: [/notes.txt]
    is a regular file, no directory, and does not pass [is_heic_file],
    yet [main] attempts one conversion on it.  [/scan.jpg] does not pass
    either, and is converted. *)
Lemma single_file_root_counterexample :
  ~ (forall (c : Codec) (prog : string) (args : list string) (w w' : World)
            (opts : Options) (input_path : path),
       startup prog args w = inr (opts, input_path, w') ->
       is_regular_file w input_path = true ->
       is_heic_file w input_path = false ->
       conversions (main c prog args w) = []).
Proof.
  intros H.
  specialize (H toy_codec "prog" ["/notes.txt"] demo_world demo_world
                (mkOptions "/notes.txt" "" 85 false false) "/notes.txt"
                eq_refl eq_refl eq_refl).
  discriminate H.
Qed.

(** C3, amended.  When the input path is a regular file, [main] applies
    no classifier to it: whether or not it passes [is_heic_file], the
    batch is that one file, exactly one conversion is attempted on it,
    with the destination [get_output_path] gives, and the exit code is 0
    when the codec and the write succeed and 1 otherwise. *)
Theorem single_file_root (c : Codec) (prog : string) (args : list string)
    (w w' : World) (opts : Options) (input_path : path) :
  startup prog args w = inr (opts, input_path, w') ->
  is_regular_file w input_path = true ->
  let r := main c prog args w in
  let destination := get_output_path input_path (output_dir opts) in
  let ok := fst (conversion c input_path destination opts w') in
  r = run_batch c opts [input_path] w' []
  /\ conversions r = [mkCall input_path destination ok]
  /\ status r = Exited (if ok then 0 else 1)
  /\ final_world r = snd (conversion c input_path destination opts w').
Proof.
  intros Hs Hf r destination ok.
  destruct (startup_keeps_file _ _ _ _ _ _ Hs Hf) as [_ Hd].
  assert (E : r = run_batch c opts [input_path] w' []).
  { subst r. unfold main. rewrite Hs. unfold main_files. now rewrite Hd. }
  split; [exact E|].
  destruct (run_batch_status c opts [input_path] w' []) as (Hc & Hw & Hst).
  rewrite <- E in Hc, Hw, Hst. cbn [batch_trace batch_end] in Hc, Hw.
  fold destination in Hc, Hw. fold ok in Hc.
  split; [exact Hc|]. split; [|exact Hw].
  rewrite Hst, Hc. unfold failures. cbn. destruct ok; reflexivity.
Qed.

Lemma single_file_root_witness :
  is_heic_file demo_world "/scan.jpg" = false
  /\ conversions (main toy_codec "prog" ["/scan.jpg"; "-o"; "/out"] demo_world)
     = [mkCall "/scan.jpg" "/out/scan.webp" true]
  /\ is_heic_file demo_world "/notes.txt" = false
  /\ conversions (main toy_codec "prog" ["/notes.txt"] demo_world)
     = [mkCall "/notes.txt" "/notes.webp" false].
Proof.
  split; [reflexivity|]. split.
  { exact (proj1 (proj2 (single_file_root toy_codec "prog" ["/scan.jpg"; "-o"; "/out"]
        demo_world
        (mkWorld (Dir [("photos", photos); ("notes.txt", File [x6e; x6f]);
                       ("broken.heic", File [x00]); ("scan.jpg", File [x48; x08; x09]);
                       ("empty", Dir []); ("out", Dir [])]) [] 1000)
        (mkOptions "/scan.jpg" "/out" 85 false false) "/scan.jpg"
        eq_refl eq_refl))). }
  split; [reflexivity|].
  exact (proj1 (proj2 (single_file_root toy_codec "prog" ["/notes.txt"]
        demo_world demo_world
        (mkOptions "/notes.txt" "" 85 false false) "/notes.txt"
        eq_refl eq_refl))).
Defined.

(* ================================================================= *)
(** ** Writing the destination *)


(** What [conversion] does when it reports success. *)
Lemma conversion_true (c : Codec) (source destination : path) (opts : Options)
    (w : World) :
  fst (conversion c source destination opts w) = true ->
  exists img k w1,
    decoded c w source = Some img
    /\ encoded c opts img <> []
    /\ ofstream_open w destination = Some (k, w1)
    /\ snd (conversion c source destination opts w) =
       snd (ofstream_write w1 k (encoded c opts img)).
Proof.
  unfold conversion.
  destruct (decoded c w source) as [img|]; [|discriminate].
  destruct (encoded c opts img) as [|b data] eqn:Ee; [discriminate|].
  destruct (ofstream_open w destination) as [[k w1]|]; [|discriminate].
  intros _. exists img, k, w1.
  split; [reflexivity|]. split; [rewrite Ee; discriminate|].
  split; [reflexivity|]. now rewrite Ee.
Qed.



Lemma conversion_open (c : Codec) (source destination : path) (opts : Options)
    (w w1 : World) (img : image) (k : key) :
  decoded c w source = Some img ->
  encoded c opts img <> [] ->
  ofstream_open w destination = Some (k, w1) ->
  conversion c source destination opts w =
    (true, snd (ofstream_write w1 k (encoded c opts img))).
Proof.
  intros Hd He Ho. unfold conversion. rewrite Hd.
  destruct (encoded c opts img) as [|b data]; [now elim He|]. now rewrite Ho.
Qed.

Lemma stat_at (w : World) (p : path) (k : key) (n : node) :
  resolve w p = Some k -> get (root w) k = Some n -> stat w p = Some n.
Proof. intros Hr Hg. unfold stat. now rewrite Hr. Qed.

(** When the output stream cannot be opened the conversion is reported as
    failed and the world is untouched. *)
Lemma open_failure_reported (c : Codec) (source destination : path) (opts : Options)
    (w : World) (img : image) :
  decoded c w source = Some img ->
  encoded c opts img <> [] ->
  ofstream_open w destination = None ->
  conversion c source destination opts w = (false, w).
Proof.
  intros Hd He Ho. unfold conversion.
  rewrite Hd. destruct (encoded c opts img); [now elim He|]. now rewrite Ho.
Qed.

(** When the stream opens, the result of the write is never examined:
    the conversion is reported as a success whether or not the bytes
    reached the file. *)
Lemma write_result_ignored (c : Codec) (source destination : path) (opts : Options)
    (w w1 : World) (img : image) (k : key) :
  decoded c w source = Some img ->
  encoded c opts img <> [] ->
  ofstream_open w destination = Some (k, w1) ->
  fst (ofstream_write w1 k (encoded c opts img)) = false ->
  fst (conversion c source destination opts w) = true.
Proof.
  intros Hd He Ho _.
  now rewrite (conversion_open c source destination opts w w1 img k Hd He Ho).
Qed.

(** C4, what the code does at a failing write.  On a device with two free
    bytes the stream for [/photos/a.webp] opens, the write of the four
    encoded bytes of [/photos/a.heic] fails after two of them,
    [convert_heic_to_webp] returns [true] all the same, the cut file
    stays, and [main] counts one success and exits with 0. *)
Theorem write_failure_counted_as_success :
  let data := [x57; x01; x02; x03] in
  decoded toy_codec full_world "/photos/a.heic" = Some (mkImage 1 1 3 [x01; x02; x03])
  /\ encoded toy_codec default_options (mkImage 1 1 3 [x01; x02; x03]) = data
  /\ exists k w1 w2,
       ofstream_open full_world "/photos/a.webp" = Some (k, w1)
       /\ ofstream_write w1 k data = (false, w2)
       /\ convert_heic_to_webp toy_codec "/photos/a.heic" "/photos/a.webp"
            default_options full_world = Val (true, [], w2)
       /\ stat w2 "/photos/a.webp" = Some (File [x57; x01])
       /\ main toy_codec "prog" ["/photos/a.heic"] full_world
          = mkRun (Exited 0) [Converted "a.heic" "a.webp"; Summary 1 1] w2
                  [mkCall "/photos/a.heic" "/photos/a.webp" true].
Proof.
  cbv zeta. split; [reflexivity|]. split; [reflexivity|].
  eexists; eexists; eexists.
  split; [reflexivity|]. split; [reflexivity|].
  split; [reflexivity|]. split; reflexivity.
Qed.

(* ================================================================= *)
(** ** Discovery *)

Lemma split_slash_app (a b : string) :
  split_slash (a ++ String slash b) = split_slash a ++ split_slash b.
Proof.
  induction a as [|x a IH]; simpl.
  - reflexivity.
  - destruct (Ascii.eqb x slash); [now rewrite IH|].
    rewrite IH. destruct (split_slash a) as [|h t] eqn:E; [|reflexivity].
    destruct a; simpl in E; [discriminate|].
    destruct (Ascii.eqb a slash); [discriminate|].
    destruct (split_slash a0); discriminate.
Qed.

Lemma split_slash_name (n : string) :
  contains slash n = false -> split_slash n = [n].
Proof.
  induction n as [|x n IH]; simpl; [reflexivity|].
  intros H. apply orb_false_elim in H. destruct H as [Hx Hn].
  rewrite Hx, (IH Hn). reflexivity.
Qed.



Lemma valid_name_inv (n : string) :
  valid_name n = true ->
  String.eqb n "" = false /\ String.eqb n "." = false
  /\ String.eqb n ".." = false /\ contains slash n = false.
Proof.
  unfold valid_name. intros H.
  repeat (apply andb_prop in H; destruct H as [H ?]).
  repeat split; now apply negb_true_iff.
Qed.






(** Induction on the tree: a directory when all its entries. *)
Lemma node_tree_ind (P : node -> Prop) :
  (forall d, P (File d)) ->
  (forall es, Forall (fun e => P (snd e)) es -> P (Dir es)) ->
  forall n, P n.
Proof.
  intros HF HD. fix IH 1. intros [d|es].
  - apply HF.
  - apply HD. induction es as [|e es IHes]; constructor.
    + apply IH.
    + exact IHes.
Qed.

Lemma assoc_in (n : string) (es : list (string * node)) (child : node) :
  assoc n es = Some child -> In (n, child) es.
Proof.
  induction es as [|[x v] es IH]; simpl; [discriminate|].
  destruct (String.eqb_spec x n) as [->|_].
  - intros H. inversion H. now left.
  - intros H. right. now apply IH.
Qed.

Lemma distinct_assoc (es : list (string * node)) (n : string) (child : node) :
  distinct (map fst es) = true -> In (n, child) es -> assoc n es = Some child.
Proof.
  induction es as [|[x v] es IH]; simpl; [tauto|].
  intros Hd Hin. apply andb_prop in Hd. destruct Hd as [Hx Hd].
  destruct Hin as [E|Hin].
  - inversion E; subst. now rewrite String.eqb_refl.
  - destruct (String.eqb_spec x n) as [->|_]; [|now apply IH].
    exfalso. apply negb_true_iff in Hx.
    assert (existsb (String.eqb n) (map fst es) = true); [|congruence].
    apply existsb_exists. exists n. split; [|apply String.eqb_refl].
    now apply (in_map fst) in Hin.
Qed.

Lemma wf_entry (es : list (string * node)) (n : string) (child : node) :
  wf_node (Dir es) = true -> In (n, child) es ->
  valid_name n = true /\ wf_node child = true /\ assoc n es = Some child.
Proof.
  cbn [wf_node]. intros H Hin. apply andb_prop in H. destruct H as [Hd Hf].
  rewrite forallb_forall in Hf. specialize (Hf _ Hin). cbn [fst snd] in Hf.
  apply andb_prop in Hf. destruct Hf as [Hv Hw].
  repeat split; try assumption. now apply distinct_assoc.
Qed.

Lemma wf_get (k : key) :
  forall r n, wf_node r = true -> get r k = Some n -> wf_node n = true.
Proof.
  induction k as [|x k IH]; intros r n Hw Hg.
  - simpl in Hg. now inversion Hg; subst.
  - simpl in Hg. destruct r as [d|es]; [discriminate|].
    destruct (assoc x es) as [child|] eqn:Ea; [|discriminate].
    apply assoc_in in Ea. destruct (wf_entry es x child Hw Ea) as (_ & Hc & _).
    now apply (IH child).
Qed.

Lemma stat_wf (w : World) (p : path) (n : node) :
  wf_node (root w) = true -> stat w p = Some n -> wf_node n = true.
Proof.
  unfold stat. intros Hw Hs. destruct (resolve w p) as [k|]; [|discriminate].
  now apply (wf_get k (root w)).
Qed.



Lemma descend_snoc (prefix : path) (names : list string) (n : string) :
  descend prefix (names ++ [n]) = path_join (descend prefix names) n.
Proof. unfold descend. now rewrite fold_left_app. Qed.






(* ================================================================= *)
(** ** Converting the same source again *)


Lemma get_parent_dir (k : key) :
  forall r n, get r k = Some n -> k <> [] -> is_dir (get r (removelast k)) = true.
Proof.
  induction k as [|x k IH]; intros r n Hg Hk; [now elim Hk|].
  destruct r as [d|es]; [discriminate|]. destruct k as [|y k']; [reflexivity|].
  change (removelast (x :: y :: k')) with (x :: removelast (y :: k')).
  simpl in Hg |- *. destruct (assoc x es) as [child|]; [|discriminate].
  apply (IH child n Hg). discriminate.
Qed.

Lemma is_dir_true (o : option node) :
  is_dir o = true -> exists es, o = Some (Dir es).
Proof. destruct o as [[d|es]|]; try discriminate. eauto. Qed.












(* ================================================================= *)
(** * Further properties of the code *)

(* ================================================================= *)
(** ** parse_args: how the command line is read *)

Lemma values_of_cons (short long arg : string) (v : option string)
    (ts : list (string * option string)) :
  values_of short long ((arg, v) :: ts) =
  (if String.eqb arg short || String.eqb arg long then
     match v with Some x => [x] | None => [] end
   else []) ++ values_of short long ts.
Proof. reflexivity. Qed.

Lemma has_flag_cons (short long arg : string) (v : option string)
    (ts : list (string * option string)) :
  has_flag short long ((arg, v) :: ts) =
  (String.eqb arg short || String.eqb arg long) || has_flag short long ts.
Proof. reflexivity. Qed.

Lemma last_values (v : string) (vs : list string) (d : string) :
  last (v :: vs) d = last vs v.
Proof. apply last_cons. Qed.

(** What the options that [parse_loop] returns hold, field by field. *)
Lemma parse_loop_reads (prog : string) (l : list string) :
  forall o o',
    parse_loop prog o l = Parsed o' ->
    output_dir o' = last (values_of "-o" "--output" (tokens l)) (output_dir o)
    /\ recursive o' = recursive o || has_flag "-r" "--recursive" (tokens l)
    /\ verbose o' = verbose o || has_flag "-v" "--verbose" (tokens l)
    /\ (values_of "-q" "--quality" (tokens l) = [] -> quality o' = quality o)
    /\ (values_of "-q" "--quality" (tokens l) <> [] ->
        stoi (last (values_of "-q" "--quality" (tokens l)) "") = Val (quality o')).
Proof.
  induction l as [|arg rest IH1 IH2] using args_ind; intros o o' H.
  - simpl in H. inversion H; subst. cbn. rewrite !orb_false_r.
    repeat split; congruence.
  - cbn [parse_loop tokens] in H |- *. unfold takes_value.
    case_arg arg; cbn [orb] in H |- *; try discriminate.
    + destruct rest as [|v rest']; [discriminate|].
      destruct (IH2 v rest' eq_refl _ _ H) as (A & B & C & D & E).
      rewrite !values_of_cons, !has_flag_cons. cbn -[tokens values_of has_flag last stoi].
      split; [rewrite last_cons; exact A | repeat split; assumption].
    + destruct rest as [|v rest']; [discriminate|].
      destruct (IH2 v rest' eq_refl _ _ H) as (A & B & C & D & E).
      rewrite !values_of_cons, !has_flag_cons. cbn -[tokens values_of has_flag last stoi].
      split; [rewrite last_cons; exact A | repeat split; assumption].
    + destruct rest as [|v rest']; [discriminate|].
      destruct (stoi v) as [q|e] eqn:Hv; [|discriminate].
      destruct ((q <? 1)%Z || (100 <? q)%Z); [discriminate|].
      destruct (IH2 v rest' eq_refl _ _ H) as (A & B & C & D & E).
      rewrite !values_of_cons, !has_flag_cons. cbn -[tokens values_of has_flag last stoi].
      split; [exact A|]. split; [exact B|]. split; [exact C|].
      split; [discriminate|]. intros _. rewrite last_cons.
      destruct (values_of "-q" "--quality" (tokens rest')) as [|x xs] eqn:Ev.
      * cbn. rewrite Hv. f_equal. symmetry. now apply D.
      * rewrite (last_default x xs v ""). apply E. discriminate.
    + destruct rest as [|v rest']; [discriminate|].
      destruct (stoi v) as [q|e] eqn:Hv; [|discriminate].
      destruct ((q <? 1)%Z || (100 <? q)%Z); [discriminate|].
      destruct (IH2 v rest' eq_refl _ _ H) as (A & B & C & D & E).
      rewrite !values_of_cons, !has_flag_cons. cbn -[tokens values_of has_flag last stoi].
      split; [exact A|]. split; [exact B|]. split; [exact C|].
      split; [discriminate|]. intros _. rewrite last_cons.
      destruct (values_of "-q" "--quality" (tokens rest')) as [|x xs] eqn:Ev.
      * cbn. rewrite Hv. f_equal. symmetry. now apply D.
      * rewrite (last_default x xs v ""). apply E. discriminate.
    + destruct (IH1 _ _ H) as (A & B & C & D & E).
      rewrite !values_of_cons, !has_flag_cons. cbn -[tokens values_of has_flag last stoi].
      split; [exact A|]. split; [rewrite B; cbn; now rewrite orb_true_r|].
      repeat split; assumption.
    + destruct (IH1 _ _ H) as (A & B & C & D & E).
      rewrite !values_of_cons, !has_flag_cons. cbn -[tokens values_of has_flag last stoi].
      split; [exact A|]. split; [rewrite B; cbn; now rewrite orb_true_r|].
      repeat split; assumption.
    + destruct (IH1 _ _ H) as (A & B & C & D & E).
      rewrite !values_of_cons, !has_flag_cons. cbn -[tokens values_of has_flag last stoi].
      split; [exact A|]. split; [exact B|].
      split; [rewrite C; cbn; now rewrite orb_true_r|].
      split; assumption.
    + destruct (IH1 _ _ H) as (A & B & C & D & E).
      rewrite !values_of_cons, !has_flag_cons. cbn -[tokens values_of has_flag last stoi].
      split; [exact A|]. split; [exact B|].
      split; [rewrite C; cbn; now rewrite orb_true_r|].
      split; assumption.
    + destruct (starts_with_dash arg); [discriminate|].
      destruct (IH1 _ _ H) as (A & B & C & D & E).
      rewrite !values_of_cons, !has_flag_cons.
      repeat match goal with
             | |- context [String.eqb arg ?s] =>
                 destruct (String.eqb_spec arg s); [congruence|]
             end.
      cbn -[tokens values_of has_flag last stoi].
      repeat split; assumption.
Qed.

(** X1. The options [parse_args] returns are a reading of the tokens of
    the command line: the input is the last positional argument, the
    output directory the value of the last output flag, the quality the
    value of the last quality flag (which reads as an integer from 1 to
    100) or 85 when there is none, and the recursive and verbose switches
    are on exactly when their flag occurs as a token. *)
Theorem parse_args_reads (prog : string) (args : list string) (o : Options) :
  parse_args prog args = Parsed o ->
  let ts := tokens args in
  input o = last (positionals args) ""
  /\ output_dir o = last (values_of "-o" "--output" ts) ""
  /\ recursive o = has_flag "-r" "--recursive" ts
  /\ verbose o = has_flag "-v" "--verbose" ts
  /\ (values_of "-q" "--quality" ts = [] -> quality o = 85%Z)
  /\ (values_of "-q" "--quality" ts <> [] ->
      stoi (last (values_of "-q" "--quality" ts) "") = Val (quality o)
      /\ (1 <= quality o <= 100)%Z).
Proof.
  intros H ts. unfold parse_args in H.
  destruct (parse_loop_reads prog args _ _ H) as (A & B & C & D & E).
  split; [exact (parse_loop_input prog args _ _ H)|].
  split; [exact A|]. split; [exact B|]. split; [exact C|]. split; [exact D|].
  intros Hq. split; [now apply E|].
  apply (parse_loop_quality_range prog args _ _ H). simpl. lia.
Qed.

Lemma parse_args_reads_witness :
  parse_args "prog" ["a.heic"; "-o"; "-r"; "-q"; "5"; "-o"; "out"; "-q"; "7x"; "b.heic"; "-v"]
  = Parsed (mkOptions "b.heic" "out" 7 false true)
  /\ recursive (mkOptions "b.heic" "out" 7 false true)
     = has_flag "-r" "--recursive"
         (tokens ["a.heic"; "-o"; "-r"; "-q"; "5"; "-o"; "out"; "-q"; "7x"; "b.heic"; "-v"]).
Proof.
  split; [reflexivity|].
  exact (proj1 (proj2 (proj2 (parse_args_reads "prog"
    ["a.heic"; "-o"; "-r"; "-q"; "5"; "-o"; "out"; "-q"; "7x"; "b.heic"; "-v"]
    (mkOptions "b.heic" "out" 7 false true) eq_refl)))).
Defined.

Lemma positionals_positional (l : list string) :
  Forall (fun a => is_positional a = true) (positionals l).
Proof.
  induction l as [|arg rest IH1 IH2] using args_ind; [constructor|].
  cbn [positionals]. destruct (takes_value arg).
  - destruct rest as [|v rest']; [constructor | exact (IH2 v rest' eq_refl)].
  - destruct (is_positional arg) eqn:E; [constructor; assumption | exact IH1].
Qed.

Lemma unknown_option_step (prog : string) (o : Options) (a : string)
    (rest : list string) :
  starts_with_dash a = true -> is_flag a = false ->
  parse_loop prog o (a :: rest) = ParseExit 1 [UnknownOption a].
Proof.
  unfold is_flag. intros Hd Hf. cbn [parse_loop].
  case_arg a; cbn [orb] in Hf |- *; try discriminate.
  now rewrite Hd.
Qed.

(** X2. An argument that starts with a dash is never taken as the input:
    where [parse_args] expects a flag or an input, such an argument that
    is none of the known flags ends the run with exit code 1 and the
    message that names it, and the input that [parse_args] returns never
    starts with a dash. *)
Theorem dash_is_never_input (prog : string) (pre rest : list string) (a : string)
    (o1 : Options) :
  parse_args prog pre = Parsed o1 ->
  starts_with_dash a = true ->
  is_flag a = false ->
  parse_args prog (pre ++ a :: rest) = ParseExit 1 [UnknownOption a]
  /\ (forall c w, main c prog (pre ++ a :: rest) w
                  = mkRun (Exited 1) [UnknownOption a] w [])
  /\ (forall args o, parse_args prog args = Parsed o ->
                     starts_with_dash (input o) = false).
Proof.
  intros Hpre Hd Hf.
  assert (E : parse_args prog (pre ++ a :: rest) = ParseExit 1 [UnknownOption a]).
  { unfold parse_args in *. rewrite (parse_loop_app prog pre _ _ _ Hpre).
    now apply unknown_option_step. }
  split; [exact E|]. split; [intros c w; now apply main_parse_exit|].
  intros args o H. unfold parse_args in H.
  rewrite (parse_loop_input prog args _ _ H). cbn [input default_options].
  pose proof (positionals_positional args) as Hall.
  destruct (positionals args) as [|x xs]; [reflexivity|].
  assert (Hin : In (last (x :: xs) "") (x :: xs)).
  { destruct (exists_last (l := x :: xs)) as (l' & y & ->); [discriminate|].
    rewrite last_last. apply in_or_app. right. now left. }
  rewrite Forall_forall in Hall. specialize (Hall _ Hin).
  unfold is_positional in Hall. apply andb_prop in Hall.
  destruct Hall as [_ Hall]. now apply negb_true_iff in Hall.
Qed.

Lemma dash_is_never_input_witness :
  parse_args "prog" ["-r"; "-photo.heic"; "-v"] = ParseExit 1 [UnknownOption "-photo.heic"]
  /\ parse_args "prog" ["-"] = ParseExit 1 [UnknownOption "-"].
Proof.
  split.
  - exact (proj1 (dash_is_never_input "prog" ["-r"] ["-v"] "-photo.heic"
                    (mkOptions "" "" 85 true false) eq_refl eq_refl eq_refl)).
  - exact (proj1 (dash_is_never_input "prog" [] [] "-" default_options
                    eq_refl eq_refl eq_refl)).
Defined.

(* ================================================================= *)
(** ** std::stoi on a quality value *)

Lemma read_digits_append (s suffix : string) :
  no_digit_start suffix = true ->
  forall acc, read_digits (s ++ suffix) acc = read_digits s acc.
Proof.
  intros Hs. induction s as [|a s IH]; intros acc; simpl.
  - destruct suffix as [|b t]; [reflexivity|]. simpl in Hs |- *.
    destruct (digit_value b); [discriminate | reflexivity].
  - destruct (digit_value a); [apply IH | reflexivity].
Qed.

Lemma skip_spaces_append (s suffix : string) :
  skip_spaces s <> "" ->
  skip_spaces (s ++ suffix) = (skip_spaces s ++ suffix)%string.
Proof.
  induction s as [|a s IH]; simpl; intros H; [now elim H|].
  destruct (isspace a); [now apply IH | reflexivity].
Qed.

Lemma skip_spaces_leading (ws s : string) :
  all_spaces ws = true -> skip_spaces (ws ++ s) = skip_spaces s.
Proof.
  induction ws as [|a ws IH]; simpl; intros H; [reflexivity|].
  apply andb_prop in H. destruct H as [Ha Hws]. rewrite Ha. now apply IH.
Qed.

Lemma stoi_leading (ws s : string) :
  all_spaces ws = true -> stoi (ws ++ s) = stoi s.
Proof. intros H. unfold stoi. now rewrite skip_spaces_leading. Qed.

Lemma stoi_trailing (v suffix : string) (q : Z) :
  stoi v = Val q -> no_digit_start suffix = true -> stoi (v ++ suffix) = Val q.
Proof.
  unfold stoi. intros H Hs.
  destruct (skip_spaces v) as [|a r] eqn:E; [discriminate|].
  rewrite skip_spaces_append by (rewrite E; discriminate). rewrite E.
  cbn [append].
  destruct (Ascii.eqb a "-"); [|destruct (Ascii.eqb a "+")].
  - destruct r as [|d r']; [discriminate|]. cbn [append].
    destruct (digit_value d); [|discriminate].
    change (String d (r' ++ suffix))%string with (String d r' ++ suffix)%string.
    now rewrite read_digits_append.
  - destruct r as [|d r']; [discriminate|]. cbn [append].
    destruct (digit_value d); [|discriminate].
    change (String d (r' ++ suffix))%string with (String d r' ++ suffix)%string.
    now rewrite read_digits_append.
  - destruct (digit_value a); [|discriminate].
    change (String a (r ++ suffix))%string with (String a r ++ suffix)%string.
    now rewrite read_digits_append.
Qed.

(** X3. A quality value is read leniently: white space before the number
    and any text after its digits are ignored, so a value such as
    [" 90%"] is accepted and gives the same result of [parse_args] as
    ["90"]. *)
Theorem quality_value_lenient (prog : string) (pre rest : list string)
    (flag ws v suffix : string) (o1 : Options) (q : Z) :
  parse_args prog pre = Parsed o1 ->
  flag = "-q" \/ flag = "--quality" ->
  stoi v = Val q ->
  all_spaces ws = true ->
  no_digit_start suffix = true ->
  stoi (ws ++ v ++ suffix) = Val q
  /\ parse_args prog (pre ++ flag :: (ws ++ v ++ suffix)%string :: rest)
     = parse_args prog (pre ++ flag :: v :: rest).
Proof.
  intros Hpre Hflag Hv Hws Hs.
  assert (E : stoi (ws ++ v ++ suffix) = Val q).
  { rewrite stoi_leading by exact Hws. now apply stoi_trailing. }
  split; [exact E|].
  rewrite (proj1 (quality_flag_step prog pre rest flag _ o1 Hpre Hflag)).
  rewrite (proj1 (quality_flag_step prog pre rest flag v o1 Hpre Hflag)).
  now rewrite E, Hv.
Qed.

Lemma quality_value_lenient_witness :
  stoi " 90% of the best" = Val 90%Z
  /\ parse_args "prog" ["in.heic"; "-q"; " 90% of the best"; "-r"]
     = Parsed (mkOptions "in.heic" "" 90 true false).
Proof.
  split.
  - exact (proj1 (quality_value_lenient "prog" ["in.heic"] ["-r"] "-q" " " "90"
             "% of the best" (mkOptions "in.heic" "" 85 false false) 90%Z
             eq_refl (or_introl eq_refl) eq_refl eq_refl eq_refl)).
  - exact (eq_trans (proj2 (quality_value_lenient "prog" ["in.heic"] ["-r"] "-q" " " "90"
             "% of the best" (mkOptions "in.heic" "" 85 false false) 90%Z
             eq_refl (or_introl eq_refl) eq_refl eq_refl eq_refl)) eq_refl).
Defined.

(* ================================================================= *)
(** ** is_heic_file *)

Lemma tolower_is_dot (a : ascii) : Ascii.eqb (tolower a) dot = Ascii.eqb a dot.
Proof. destruct a as [[] [] [] [] [] [] [] []]; reflexivity. Qed.

Lemma lowercase_contains_dot (e : string) :
  contains dot (lowercase e) = contains dot e.
Proof.
  induction e as [|a e IH]; simpl; [reflexivity|].
  now rewrite tolower_is_dot, IH.
Qed.

Lemma extension_stem_nonempty (p : path) : extension p <> "" -> stem p <> "".
Proof.
  unfold extension, stem, split_extension.
  destruct (String.eqb (filename p) "." || String.eqb (filename p) "..");
    [intros H; now elim H|].
  destruct (rsplit dot (filename p)) as [[b t]|]; [|intros H; now elim H].
  destruct b; [intros H; now elim H | discriminate].
Qed.

Lemma split_extension_at (s e : string) :
  s <> "" -> contains dot e = false -> e <> "" ->
  split_extension (s ++ String dot e) = (s, String dot e).
Proof.
  intros Hs He Hne. unfold split_extension.
  destruct s as [|a s']; [now elim Hs|].
  assert (E1 : String.eqb (String a s' ++ String dot e) "." = false).
  { apply String.eqb_neq. cbn. intros H. inversion H. destruct s'; discriminate. }
  assert (E2 : String.eqb (String a s' ++ String dot e) ".." = false).
  { apply String.eqb_neq. cbn. intros H. inversion H as [[Ha Hr]].
    destruct s' as [|b s'']; cbn in Hr.
    - inversion Hr. congruence.
    - inversion Hr. destruct s''; discriminate. }
  rewrite E1, E2. cbn [orb]. now rewrite rsplit_at.
Qed.

(** X4. [is_heic_file] holds of a path exactly when it is a regular file
    whose name is a non-empty stem, a period, and [heic] or [heif] in any
    letter case.  A name that is nothing but a period and an extension,
    such as [.heic], is not a source file. *)
Theorem is_heic_file_by_name (w : World) (p : path) :
  (is_heic_file w p = true <->
   is_regular_file w p = true
   /\ exists s e, filename p = (s ++ String dot e)%string
                  /\ s <> ""
                  /\ (lowercase e = "heic" \/ lowercase e = "heif"))
  /\ (forall e, filename p = String dot e -> contains dot e = false ->
                is_heic_file w p = false).
Proof.
  split.
  - unfold is_heic_file. split.
    + intros H. destruct (is_regular_file w p); [|discriminate]. cbn [negb] in H.
      split; [reflexivity|].
      destruct (split_extension_parts (filename p)) as [Hf [He|(e & He & Hd)]];
        fold (extension p) in *; fold (stem p) in *.
      * rewrite He in H. discriminate.
      * exists (stem p), e. split; [now rewrite <- He, Hf|].
        split; [apply extension_stem_nonempty; rewrite He; discriminate|].
        rewrite He in H. cbn [lowercase] in H.
        apply orb_prop in H. destruct H as [H|H]; apply String.eqb_eq in H;
          inversion H; [now left | now right].
    + intros (Hr & s & e & Hf & Hs & He). rewrite Hr. cbn [negb].
      assert (Hd : contains dot e = false).
      { rewrite <- lowercase_contains_dot. destruct He as [-> | ->]; reflexivity. }
      assert (Hne : e <> "") by (intros ->; destruct He; discriminate).
      unfold extension. rewrite Hf, (split_extension_at s e Hs Hd Hne).
      cbn [snd lowercase]. destruct He as [-> | ->]; reflexivity.
  - intros e Hf Hd. unfold is_heic_file.
    destruct (is_regular_file w p); [|reflexivity]. cbn [negb].
    unfold extension, split_extension. rewrite Hf.
    destruct (String.eqb (String dot e) "." || String.eqb (String dot e) "..");
      [reflexivity|].
    cbn [rsplit]. apply rsplit_none in Hd. rewrite Hd. reflexivity.
Qed.

(* ================================================================= *)
(** ** convert_heic_to_webp *)

(** X5. What one conversion prints.  A failed conversion prints exactly
    one failure line, and it is its last line; a successful one prints
    none.  Without the verbose switch a failure prints that line alone
    and a success prints nothing; with it the first line names the
    source. *)
Theorem convert_heic_to_webp_lines (c : Codec) (source destination : path)
    (opts : Options) (w w' : World) (ok : bool) (lines : list msg) :
  convert_heic_to_webp c source destination opts w = Val (ok, lines, w') ->
  length (filter is_failure_line lines) = (if ok then 0 else 1)
  /\ (ok = false -> is_failure_line (last lines Done) = true)
  /\ (verbose opts = false -> length lines = (if ok then 0 else 1))
  /\ (verbose opts = true -> exists rest, lines = Decoding source :: rest).
Proof.
  unfold convert_heic_to_webp.
  destruct (heif_context_read_from_file c w source) as [ctx|].
  2:{ intros H; inversion H; subst.
      destruct (verbose opts); cbn; repeat split; intros;
        try discriminate; try reflexivity; eauto. }
  destruct (heif_context_get_primary_image_handle c ctx) as [handle|].
  2:{ intros H; inversion H; subst.
      destruct (verbose opts); cbn; repeat split; intros;
        try discriminate; try reflexivity; eauto. }
  destruct (heif_decode_image c handle) as [img|].
  2:{ intros H; inversion H; subst.
      destruct (verbose opts); cbn; repeat split; intros;
        try discriminate; try reflexivity; eauto. }
  destruct (length (WebPEncodeRGB c (img_rgb img) (img_width img) (img_height img)
              (img_stride img) (quality opts)) =? 0)%nat.
  { intros H; inversion H; subst.
    destruct (verbose opts); cbn; repeat split; intros;
      try discriminate; try reflexivity; eauto. }
  destruct (ofstream_open w destination) as [[k w1]|].
  2:{ intros H; inversion H; subst.
      destruct (verbose opts); cbn; repeat split; intros;
        try discriminate; try reflexivity; eauto. }
  destruct (verbose opts).
  - destruct (file_size _ source) as [n|e]; [|discriminate].
    intros H; inversion H; subst. cbn. repeat split; intros;
      try discriminate; try reflexivity; eauto.
  - intros H; inversion H; subst. cbn. repeat split; intros;
      try discriminate; try reflexivity; eauto.
Qed.

Lemma convert_heic_to_webp_lines_witness :
  convert_heic_to_webp toy_codec "/photos/a.heic" "/empty" (set_verbose default_options)
    demo_world
  = Val (false, [Decoding "/photos/a.heic"; Dimensions 1 1; EncodingWebP "/empty";
                 FailedToCreateOutput "/empty"], demo_world)
  /\ length (filter is_failure_line
               [Decoding "/photos/a.heic"; Dimensions 1 1; EncodingWebP "/empty";
                FailedToCreateOutput "/empty"]) = 1.
Proof.
  split; [reflexivity|].
  exact (proj1 (convert_heic_to_webp_lines toy_codec "/photos/a.heic" "/empty"
                  (set_verbose default_options) demo_world demo_world false _ eq_refl)).
Defined.

Lemma convert_heic_to_webp_conversion (c : Codec) (source destination : path)
    (opts : Options) (w w' : World) (ok : bool) (lines : list msg) :
  convert_heic_to_webp c source destination opts w = Val (ok, lines, w') ->
  conversion c source destination opts w = (ok, w').
Proof.
  intros H.
  destruct (convert_heic_to_webp_returns c source destination opts w) as (l & E & _).
  rewrite H in E. inversion E as [[H1 H2 H3]].
  now destruct (conversion c source destination opts w).
Qed.

(** X6. A conversion fails exactly when the source does not decode, the
    encoder returns nothing, or the output stream cannot be opened; a
    failed conversion leaves the world as it was: no file is created,
    truncated or written. *)
Theorem convert_failure_changes_nothing (c : Codec) (source destination : path)
    (opts : Options) (w w' : World) (ok : bool) (lines : list msg) :
  convert_heic_to_webp c source destination opts w = Val (ok, lines, w') ->
  (ok = false <->
   decoded c w source = None
   \/ exists img, decoded c w source = Some img
                  /\ (encoded c opts img = []
                      \/ ofstream_open w destination = None))
  /\ (ok = false -> w' = w).
Proof.
  intros H. apply convert_heic_to_webp_conversion in H.
  unfold conversion in H.
  destruct (decoded c w source) as [img|].
  2:{ inversion H; subst. split; [|reflexivity]. split; [now left | reflexivity]. }
  destruct (encoded c opts img) as [|b data] eqn:Ee.
  { inversion H; subst. split; [|reflexivity].
    split; [|reflexivity]. intros _. right. exists img. split; [reflexivity | now left]. }
  destruct (ofstream_open w destination) as [[k w1]|] eqn:Eo.
  - inversion H; subst. split; [|discriminate]. split; [discriminate|].
    intros [Hd|(img' & Hd & [He|Ho])]; try discriminate.
    inversion Hd; subst img'. rewrite Ee in He. discriminate.
  - inversion H; subst. split; [|reflexivity].
    split; [|reflexivity]. intros _. right. exists img. split; [reflexivity | now right].
Qed.

Lemma convert_failure_changes_nothing_witness :
  convert_heic_to_webp toy_codec "/photos/a.heic" "/empty" default_options demo_world
  = Val (false, [FailedToCreateOutput "/empty"], demo_world)
  /\ (false = false <->
      decoded toy_codec demo_world "/photos/a.heic" = None
      \/ exists img, decoded toy_codec demo_world "/photos/a.heic" = Some img
                     /\ (encoded toy_codec default_options img = []
                         \/ ofstream_open demo_world "/empty" = None)).
Proof.
  split; [reflexivity|].
  exact (proj1 (convert_failure_changes_nothing toy_codec "/photos/a.heic" "/empty"
                  default_options demo_world demo_world false
                  [FailedToCreateOutput "/empty"] eq_refl)).
Defined.

(** X7. A conversion that succeeds changes the destination and nothing
    else: the working directory and the resolution of every path stay
    the same, and every path that does not resolve to the destination
    keeps what it had (nothing, the same bytes, or a directory).  The
    destination becomes a regular file that holds the encoded bytes, all
    of them when the device has room for them (the room of a file it
    replaces included) and the longest prefix that fits otherwise. *)
Theorem convert_success_writes_destination (c : Codec) (source destination : path)
    (opts : Options) (w w' : World) (lines : list msg) :
  convert_heic_to_webp c source destination opts w = Val (true, lines, w') ->
  exists img k,
    decoded c w source = Some img
    /\ resolve w destination = Some k
    /\ cwd w' = cwd w
    /\ (forall p, resolve w' p = resolve w p)
    /\ (forall p, resolve w p <> Some k ->
                  shape_of (stat w' p) = shape_of (stat w p))
    /\ (let data := encoded c opts img in
        let room := free_space w
                    + match stat w destination with
                      | Some (File old) => length old
                      | _ => 0
                      end in
        stat w' destination = Some (File (firstn (Nat.min (length data) room) data))
        /\ (length data <= room -> stat w' destination = Some (File data))
        /\ free_space w' = room - Nat.min (length data) room).
Proof.
  intros H. apply convert_heic_to_webp_conversion in H.
  assert (Hok : fst (conversion c source destination opts w) = true) by now rewrite H.
  destruct (conversion_true c source destination opts w Hok)
    as (img & k & wa & Hd & He & Ho & Hw).
  rewrite H in Hw. cbn [snd] in Hw.
  pose proof (ofstream_open_some _ _ _ _ Ho) as (Hr & Hfw0 & Hfree0).
  pose proof (ofstream_write_open wa k (encoded c opts img) []
                (ofstream_open_file _ _ _ _ Ho)) as (Hfw1 & _ & Hfree1).
  rewrite <- Hw in Hfw1, Hfree1. cbv zeta in Hfw1, Hfree1.
  assert (Hres : forall p, resolve w' p = resolve w p).
  { intros p. now rewrite (file_written_resolve _ _ _ _ Hfw1),
                         (file_written_resolve _ _ _ _ Hfw0). }
  assert (Hroom : free_space wa
                  = free_space w + match stat w destination with
                                   | Some (File old) => length old
                                   | _ => 0
                                   end).
  { rewrite Hfree0. unfold stat. now rewrite Hr. }
  exists img, k. split; [exact Hd|]. split; [exact Hr|].
  split; [destruct Hfw1 as (-> & _); now destruct Hfw0 as (-> & _)|].
  split; [exact Hres|]. split.
  { intros p Hp. rewrite (file_written_stat _ _ _ _ Hfw1).
    rewrite (file_written_resolve _ _ _ _ Hfw0).
    destruct (resolve w p) as [kp|] eqn:Ep.
    - destruct (list_eq_dec string_dec kp k) as [->|]; [now elim Hp|].
      rewrite (file_written_stat _ _ _ _ Hfw0), Ep.
      destruct (list_eq_dec string_dec kp k); [contradiction | reflexivity].
    - unfold stat. now rewrite Ep. }
  cbv zeta. rewrite <- Hroom.
  assert (Hst : stat w' destination
                = Some (File (firstn (Nat.min (length (encoded c opts img))
                                              (free_space wa)) (encoded c opts img)))).
  { apply (stat_at _ _ k); [now rewrite Hres|].
    exact (file_written_at _ _ _ _ Hfw1). }
  split; [exact Hst|]. split; [|exact Hfree1].
  intros Hle. rewrite Hst. rewrite Nat.min_l by exact Hle. now rewrite firstn_all.
Qed.

Lemma convert_success_writes_destination_witness :
  exists w',
    convert_heic_to_webp toy_codec "/photos/a.heic" "/out.webp" default_options demo_world
    = Val (true, [], w')
    /\ stat w' "/out.webp" = Some (File [x57; x01; x02; x03])
    /\ shape_of (stat w' "/photos/a.heic") = IsFile [x48; x01; x02; x03]
    /\ free_space w' = 996.
Proof.
  eexists. split; [reflexivity|].
  destruct (convert_success_writes_destination toy_codec "/photos/a.heic" "/out.webp"
              default_options demo_world _ [] eq_refl)
    as (img & k & _ & _ & _ & _ & _ & _).
  split; [reflexivity|]. split; reflexivity.
Defined.

Lemma split_slash_nonempty (p : path) : split_slash p <> [].
Proof.
  destruct p as [|a p]; cbn; [discriminate|].
  destruct (Ascii.eqb a slash); [discriminate|].
  destruct (split_slash p); discriminate.
Qed.

(* ================================================================= *)
(** ** What a batch changes *)

Lemma conversion_false (c : Codec) (source destination : path) (opts : Options)
    (w : World) :
  fst (conversion c source destination opts w) = false ->
  snd (conversion c source destination opts w) = w.
Proof.
  unfold conversion. destruct (decoded c w source) as [img|]; [|reflexivity].
  destruct (encoded c opts img); [reflexivity|].
  destruct (ofstream_open w destination) as [[k w1]|]; [discriminate | reflexivity].
Qed.

(** One conversion, failed or not: paths resolve as before, only the
    destination can change, directories stay directories and regular
    files stay regular files. *)
Lemma conversion_frame (c : Codec) (source destination : path) (opts : Options)
    (w : World) :
  let w' := snd (conversion c source destination opts w) in
  (forall p, resolve w' p = resolve w p)
  /\ (forall p, resolve w destination <> resolve w p ->
                shape_of (stat w' p) = shape_of (stat w p))
  /\ (forall p, shape_of (stat w p) = IsDir -> shape_of (stat w' p) = IsDir)
  /\ (forall p, regular (shape_of (stat w p)) -> regular (shape_of (stat w' p))).
Proof.
  intros w'. subst w'.
  destruct (fst (conversion c source destination opts w)) eqn:Hok.
  2:{ rewrite (conversion_false _ _ _ _ _ Hok). repeat split; auto. }
  destruct (conversion_true c source destination opts w Hok)
    as (img & k & wa & Hd & He & Ho & ->).
  pose proof (ofstream_open_some _ _ _ _ Ho) as (Hr & Hfw0 & _).
  pose proof (ofstream_write_open wa k (encoded c opts img) []
                (ofstream_open_file _ _ _ _ Ho)) as (Hfw1 & _).
  cbv zeta in Hfw1.
  assert (Hres : forall p, resolve (snd (ofstream_write wa k (encoded c opts img))) p
                           = resolve w p).
  { intros p. now rewrite (file_written_resolve _ _ _ _ Hfw1),
                         (file_written_resolve _ _ _ _ Hfw0). }
  assert (Hst : forall p,
             shape_of (stat (snd (ofstream_write wa k (encoded c opts img))) p)
             = match resolve w p with
               | Some k' =>
                   if list_eq_dec string_dec k' k
                   then IsFile (firstn (Nat.min (length (encoded c opts img))
                                                (free_space wa)) (encoded c opts img))
                   else shape_of (stat w p)
               | None => Absent
               end).
  { intros p. rewrite (file_written_stat _ _ _ _ Hfw1).
    rewrite (file_written_resolve _ _ _ _ Hfw0).
    destruct (resolve w p) as [kp|] eqn:Ep; [|reflexivity].
    destruct (list_eq_dec string_dec kp k); [reflexivity|].
    rewrite (file_written_stat _ _ _ _ Hfw0), Ep.
    destruct (list_eq_dec string_dec kp k); [contradiction | reflexivity]. }
  split; [exact Hres|]. split; [|split].
  - intros p Hp. rewrite Hst, Hr in *.
    destruct (resolve w p) as [kp|] eqn:Ep; [|unfold stat; now rewrite Ep].
    destruct (list_eq_dec string_dec kp k); [subst; now elim Hp | reflexivity].
  - intros p Hp. rewrite Hst. unfold stat in Hp.
    destruct (resolve w p) as [kp|] eqn:Ep; [|discriminate].
    destruct (list_eq_dec string_dec kp k) as [->|]; [|unfold stat; now rewrite Ep].
    destruct Hfw0 as (_ & _ & Hnd). contradiction.
  - intros p Hp. rewrite Hst. unfold stat in Hp.
    destruct (resolve w p) as [kp|] eqn:Ep; [|exact Hp].
    destruct (list_eq_dec string_dec kp k); [exact I|].
    unfold stat. now rewrite Ep.
Qed.

Lemma batch_end_app (c : Codec) (opts : Options) (pre post : list path) :
  forall w, batch_end c opts (pre ++ post) w = batch_end c opts post (batch_end c opts pre w).
Proof. induction pre as [|f pre IH]; intros w; [reflexivity | apply IH]. Qed.

Lemma batch_frame (c : Codec) (opts : Options) (files : list path) :
  forall w,
    let w' := batch_end c opts files w in
    (forall p, resolve w' p = resolve w p)
    /\ (forall p,
          (forall f, In f files ->
                     resolve w (get_output_path f (output_dir opts)) <> resolve w p) ->
          shape_of (stat w' p) = shape_of (stat w p))
    /\ (forall p, shape_of (stat w p) = IsDir -> shape_of (stat w' p) = IsDir)
    /\ (forall p, regular (shape_of (stat w p)) -> regular (shape_of (stat w' p))).
Proof.
  induction files as [|f rest IH]; intros w w'; subst w'.
  - cbn. repeat split; auto.
  - cbn [batch_end].
    destruct (conversion_frame c f (get_output_path f (output_dir opts)) opts w)
      as (R1 & S1 & D1 & F1).
    destruct (IH (snd (conversion c f (get_output_path f (output_dir opts)) opts w)))
      as (R2 & S2 & D2 & F2).
    split; [intros p; now rewrite R2, R1|]. split; [|split].
    + intros p Hp. rewrite S2.
      * apply S1. apply Hp. now left.
      * intros g Hg. rewrite !R1. apply Hp. now right.
    + intros p Hd. apply D2. now apply D1.
    + intros p Hr. apply F2. now apply F1.
Qed.

(** X9. A batch changes nothing but its destinations.  After the loop
    every path resolves as before; a path that is the destination of no
    file of the batch keeps what it had; nothing is deleted: a directory
    is still a directory and a regular file (a source, for one) is still
    a regular file. *)
Theorem batch_changes_only_destinations (c : Codec) (opts : Options)
    (files : list path) (w : World) (out : list msg) :
  let w' := final_world (run_batch c opts files w out) in
  (forall p, resolve w' p = resolve w p)
  /\ (forall p,
        (forall f, In f files ->
                   resolve w (get_output_path f (output_dir opts)) <> resolve w p) ->
        shape_of (stat w' p) = shape_of (stat w p))
  /\ (forall p, is_directory w p = true -> is_directory w' p = true)
  /\ (forall p, is_regular_file w p = true -> is_regular_file w' p = true).
Proof.
  intros w'. subst w'.
  rewrite (proj1 (proj2 (run_batch_status c opts files w out))).
  destruct (batch_frame c opts files w) as (R & S & D & F).
  split; [exact R|]. split; [exact S|]. split.
  - intros p Hp. unfold is_directory in *. rewrite is_dir_shape in Hp |- *.
    rewrite D; [reflexivity|]. destruct (shape_of (stat w p)); congruence.
  - intros p Hp. unfold is_regular_file in *. specialize (F p).
    destruct (stat w p) as [[d|es]|]; try discriminate.
    specialize (F I).
    destruct (stat (batch_end c opts files w) p) as [[d'|es']|];
      [reflexivity | elim F | elim F].
Qed.

Lemma batch_changes_only_destinations_witness :
  let r := run_batch toy_codec default_options ["/photos/a.heic"; "/broken.heic"]
             demo_world [] in
  shape_of (stat (final_world r) "/notes.txt") = shape_of (stat demo_world "/notes.txt")
  /\ is_regular_file (final_world r) "/photos/a.heic" = true
  /\ stat (final_world r) "/photos/a.webp" = Some (File [x57; x01; x02; x03]).
Proof.
  intros r.
  destruct (batch_changes_only_destinations toy_codec default_options
              ["/photos/a.heic"; "/broken.heic"] demo_world []) as (_ & S & _ & F).
  split.
  - apply S. intros f [<-|[<-|[]]]; discriminate.
  - split; [apply F; reflexivity | reflexivity].
Defined.

Lemma convert_success_frame_data (c : Codec) (source destination : path)
    (opts : Options) (w w' : World) (lines : list msg) :
  convert_heic_to_webp c source destination opts w = Val (true, lines, w') ->
  exists data, stat w' destination = Some (File data).
Proof.
  intros H. apply convert_heic_to_webp_conversion in H.
  assert (Hok : fst (conversion c source destination opts w) = true) by now rewrite H.
  destruct (conversion_true c source destination opts w Hok)
    as (img & k & wa & Hd & He & Ho & Hw).
  rewrite H in Hw. cbn [snd] in Hw.
  pose proof (ofstream_open_some _ _ _ _ Ho) as (Hr & Hfw0 & _).
  pose proof (ofstream_write_open wa k (encoded c opts img) []
                (ofstream_open_file _ _ _ _ Ho)) as (Hfw1 & _).
  rewrite <- Hw in Hfw1. cbv zeta in Hfw1.
  eexists. apply (stat_at _ _ k); [|exact (file_written_at _ _ _ _ Hfw1)].
  now rewrite (file_written_resolve _ _ _ _ Hfw1), (file_written_resolve _ _ _ _ Hfw0).
Qed.

(** X10. The last conversion onto a destination wins.  When a file of a
    batch is converted successfully and no later file of the batch has
    the same destination, the destination holds at the end what that
    conversion wrote, whatever earlier files of the batch wrote there:
    two sources with the same stem and the same destination directory
    are both counted as converted, and the first result is lost without
    a message. *)
Theorem last_conversion_wins (c : Codec) (opts : Options) (pre post : list path)
    (f : path) (w wi' : World) (out lines : list msg) :
  let destination := get_output_path f (output_dir opts) in
  let wi := batch_end c opts pre w in
  convert_heic_to_webp c f destination opts wi = Val (true, lines, wi') ->
  (forall g, In g post ->
             resolve w (get_output_path g (output_dir opts)) <> resolve w destination) ->
  exists data,
    stat wi' destination = Some (File data)
    /\ stat (final_world (run_batch c opts (pre ++ f :: post) w out)) destination
       = Some (File data).
Proof.
  intros destination wi H Hpost.
  destruct (convert_success_frame_data c f destination opts wi wi' lines H)
    as (data & Hdata).
  exists data. split; [exact Hdata|].
  rewrite (proj1 (proj2 (run_batch_status c opts (pre ++ f :: post) w out))).
  rewrite batch_end_app. cbn [batch_end]. fold destination. fold wi.
  rewrite (convert_heic_to_webp_conversion _ _ _ _ _ _ _ _ H). cbn [snd].
  apply shape_is_file.
  destruct (batch_frame c opts post wi') as (_ & S & _).
  rewrite S; [now apply shape_is_file|].
  intros g Hg.
  assert (Hres : forall p, resolve wi' p = resolve w p).
  { intros p.
    pose proof (proj1 (conversion_frame c f destination opts wi) p) as R1.
    rewrite (convert_heic_to_webp_conversion _ _ _ _ _ _ _ _ H) in R1.
    cbn [snd] in R1. rewrite R1. apply (batch_frame c opts pre w). }
  rewrite !Hres. now apply Hpost.
Qed.

Lemma last_conversion_wins_witness :
  let r := run_batch toy_codec default_options ["/album/a.heic"; "/album/a.HEIF"]
             twins_world [] in
  map call_destination (conversions r) = ["/album/a.webp"; "/album/a.webp"]
  /\ map call_ok (conversions r) = [true; true]
  /\ output r = [Converted "a.heic" "a.webp"; Converted "a.HEIF" "a.webp"; Summary 2 2]
  /\ stat (final_world r) "/album/a.webp" = Some (File [x57; x02; x03]).
Proof.
  intros r. split; [reflexivity|]. split; [reflexivity|]. split; [reflexivity|].
  destruct (last_conversion_wins toy_codec default_options ["/album/a.heic"] []
              "/album/a.HEIF" twins_world
              (snd (conversion toy_codec "/album/a.HEIF" "/album/a.webp" default_options
                      (batch_end toy_codec default_options ["/album/a.heic"] twins_world)))
              [] [] eq_refl) as (data & H1 & H2).
  - intros g [].
  - refine (eq_trans H2 _). refine (eq_trans (eq_sym H1) _). reflexivity.
Defined.

(* ================================================================= *)
(** ** The batch loop and main *)

(** X11. The counters of the batch loop.  The loop ends for every list
    of files, with one call per file; the two counters are the numbers of
    successful and failed calls and add up to the number of files; the
    summary line is the last line and reports the successes out of the
    number of files; the exit code is 0 exactly when no call failed and
    1 otherwise. *)
Theorem batch_counts (c : Codec) (opts : Options) (files : list path)
    (w : World) (out : list msg) :
  exists st,
    convert_all c opts files (batch_start w out) = Val st
    /\ length (batch_calls st) = length files
    /\ success_count st = Z.of_nat (successes (batch_calls st))
    /\ error_count st = Z.of_nat (failures (batch_calls st))
    /\ (success_count st + error_count st = Z.of_nat (length files))%Z
    /\ (let r := run_batch c opts files w out in
        conversions r = batch_calls st
        /\ output r = batch_out st ++ [Summary (success_count st) (length files)]
        /\ (status r = Exited 0 <-> error_count st = 0%Z)
        /\ (status r = Exited 1 <-> error_count st <> 0%Z)).
Proof.
  destruct (convert_all_returns c opts files (batch_start w out))
    as (st & E & Hw & Hc & Hs & He & Ho).
  cbn [batch_start batch_world batch_calls success_count error_count batch_out app]
    in Hw, Hc, Hs, He, Ho.
  pose proof (successes_failures (batch_trace c opts files w)) as Hsum.
  rewrite batch_trace_length in Hsum.
  exists st. split; [exact E|]. rewrite Hc.
  split; [apply batch_trace_length|]. split; [lia|]. split; [lia|]. split; [lia|].
  cbv zeta. unfold run_batch. rewrite E. cbn [conversions output status].
  split; [exact Hc|]. split; [reflexivity|].
  destruct (0 <? error_count st)%Z eqn:E0.
  - apply Z.ltb_lt in E0. split; split; intros H; try discriminate; try lia; reflexivity.
  - apply Z.ltb_ge in E0. split; split; intros H; try discriminate; try lia; reflexivity.
Qed.






(* ================================================================= *)
(** ** The output directory *)

Lemma removelast_dir (r : node) (cur : key) :
  is_dir (get r cur) = true -> is_dir (get r (removelast cur)) = true.
Proof.
  intros Hd. destruct cur as [|x cur']; [exact Hd|].
  destruct (is_dir_true _ Hd) as [es He].
  apply (get_parent_dir (x :: cur') r _ He). discriminate.
Qed.

(** After [mkdirs_from] the components resolve, to a directory. *)
Lemma mkdirs_from_resolves (comps : list string) :
  forall r cur r',
    is_dir (get r cur) = true ->
    mkdirs_from r cur comps = Some r' ->
    exists k, resolve_from r' cur comps = Some k /\ is_dir (get r' k) = true.
Proof.
  induction comps as [|c cs IH]; intros r cur r' Hd H.
  - cbn in H. inversion H; subst. exists cur. split; [reflexivity | exact Hd].
  - assert (Hd' : is_dir (get r' cur) = true).
    { rewrite is_dir_shape in Hd |- *.
      rewrite (mkdirs_from_keeps _ _ _ _ H); [exact Hd|].
      destruct (shape_of (get r cur)); discriminate. }
    cbn [mkdirs_from resolve_from] in H |- *. rewrite Hd in H. rewrite Hd'.
    destruct (String.eqb c "" || String.eqb c "."); [now apply (IH r)|].
    destruct (String.eqb c "..");
      [apply (IH r); [now apply removelast_dir | exact H]|].
    destruct (NAME_MAX <? String.length c)%nat; [discriminate|].
    destruct (get r (cur ++ [c])) as [[d|es]|] eqn:Eg; [discriminate | |].
    + apply (IH r); [now rewrite Eg | exact H].
    + destruct (put r (cur ++ [c]) (Dir [])) as [r1|] eqn:Ep; [|discriminate].
      apply (IH r1); [|exact H].
      assert (Hs : shape_of (get r (cur ++ [c])) <> IsDir) by (rewrite Eg; discriminate).
      destruct (put_shape (Dir []) (cur ++ [c]) eq_refl r r1 (cur ++ [c]) Ep Hs)
        as [H1 _].
      rewrite is_dir_shape, (H1 eq_refl). reflexivity.
Qed.

Lemma create_directories_makes (w w' : World) (p : path) :
  create_directories w p = Val w' -> is_directory w' p = true.
Proof.
  unfold create_directories. destruct p as [|a p]; [discriminate|].
  destruct (PATH_MAX <=? String.length (String a p))%nat; [discriminate|].
  destruct (mkdirs_from (root w) _ _) as [r'|] eqn:Em; [|discriminate].
  intros H. inversion H; subst w'. clear H.
  unfold is_directory, stat, resolve. cbn [root cwd].
  destruct (split_slash (String a p)) as [|c cs] eqn:Es;
    [now elim (split_slash_nonempty (String a p))|].
  assert (Hd : is_dir (get (root w) (if is_absolute (String a p) then [] else cwd w))
               = true).
  { cbn [mkdirs_from] in Em. destruct (is_dir (get (root w) _)); [reflexivity|discriminate]. }
  destruct (mkdirs_from_resolves _ _ _ _ Hd Em) as (k & -> & Hk). exact Hk.
Qed.

(** X13. The output directory is created, with its missing parents,
    after the input has been found to exist and before discovery.  When
    the run goes on to the batch the output directory is a directory -
    also when no source file is found afterwards - and whatever existed
    before is still there, unchanged.  When the run ends earlier with an
    exit code (usage, a flag in error, an input that does not exist),
    nothing has been created: the world is untouched. *)
Theorem output_directory_created (c : Codec) (prog : string) (args : list string)
    (w : World) :
  (forall opts input_path w',
     startup prog args w = inr (opts, input_path, w') ->
     (output_dir opts = "" -> w' = w)
     /\ (output_dir opts <> "" -> is_directory w' (output_dir opts) = true)
     /\ (forall q, shape_of (stat w q) <> Absent ->
                   shape_of (stat w' q) = shape_of (stat w q)))
  /\ (forall r code,
        startup prog args w = inl r -> status r = Exited code ->
        main c prog args w = r /\ final_world r = w /\ conversions r = []).
Proof.
  split.
  - intros opts input_path w' Hs.
    destruct (startup_goes_on _ _ _ _ _ _ Hs) as (_ & _ & _ & _ & [[Ho ->]|[Ho Hc]]).
    + split; [reflexivity|]. split; [intros H; now elim H | reflexivity].
    + split; [intros H; now elim Ho|].
      split; [intros _; now apply (create_directories_makes w)|].
      intros q Hq. now apply (create_directories_keeps _ _ _ _ Hc).
  - intros r code Hs _. split; [now apply main_startup_ends|].
    destruct (startup_ends _ _ _ _ Hs) as [Hc Hw]. split; assumption.
Qed.

Lemma output_directory_created_witness :
  let r := main toy_codec "prog" ["/empty"; "-o"; "made/here"] demo_world in
  output r = [NoHeicFilesFound]
  /\ is_directory demo_world "made/here" = false
  /\ is_directory (final_world r) "made/here" = true
  /\ final_world (main toy_codec "prog" ["/nowhere"; "-o"; "made/here"] demo_world)
     = demo_world.
Proof.
  intros r. split; [reflexivity|]. split; [reflexivity|]. split.
  - refine (proj1 (proj2 (proj1 (output_directory_created toy_codec "prog"
              ["/empty"; "-o"; "made/here"] demo_world)
              (mkOptions "/empty" "made/here" 85 false false) "/empty"
              (final_world r) eq_refl)) _).
    discriminate.
  - refine (proj1 (proj2 (proj2 (output_directory_created toy_codec "prog"
              ["/nowhere"; "-o"; "made/here"] demo_world)
              (mkRun (Exited 1) [InputNotFound "/nowhere"] demo_world []) 1%Z
              eq_refl eq_refl))).
Defined.

(* ================================================================= *)
(** ** Discovery and the batch *)

Lemma find_heic_files_directory (w : World) (dir : path) (recursive : bool) :
  is_directory w dir = true ->
  exists es,
    stat w dir = Some (Dir es)
    /\ find_heic_files w dir recursive
       = Val (filter (is_heic_file w)
                (if recursive then subtree dir (Dir es)
                 else map (fun e => path_join dir (fst e)) es)).
Proof.
  unfold is_directory. intros H. destruct (is_dir_true _ H) as [es Hs].
  exists es. split; [exact Hs|].
  unfold find_heic_files, recursive_directory_iterator, directory_iterator.
  rewrite Hs. now destruct recursive.
Qed.




Lemma path_join_absolute (d q : path) :
  is_absolute d = true -> is_absolute (path_join d q) = true.
Proof.
  intros Hd. unfold path_join. destruct (is_absolute q) eqn:Eq; [exact Eq|].
  destruct d as [|a d']; [discriminate|].
  destruct (ends_with_slash (String a d')); exact Hd.
Qed.

Lemma absolute_is_absolute (w : World) (p : path) : is_absolute (absolute w p) = true.
Proof.
  unfold absolute. destruct (is_absolute p) eqn:E; [exact E|].
  now apply path_join_absolute.
Qed.

Lemma subtree_absolute (n : node) :
  forall prefix, is_absolute prefix = true ->
                 Forall (fun p => is_absolute p = true) (subtree prefix n).
Proof.
  induction n as [d|es IH] using node_tree_ind; intros prefix Hp; [constructor|].
  cbn [subtree]. apply Forall_forall. intros p Hin.
  apply in_flat_map in Hin. destruct Hin as ([x child] & Hin & Hp').
  cbn [fst snd] in Hp'. destruct Hp' as [<-|Hp'].
  - now apply path_join_absolute.
  - rewrite Forall_forall in IH. specialize (IH _ Hin (path_join prefix x)).
    cbn [snd] in IH. specialize (IH (path_join_absolute _ _ Hp)).
    rewrite Forall_forall in IH. now apply IH.
Qed.

(** X15. Every conversion of a run is on an absolute source path: a
    relative input is made absolute against the working directory before
    anything else, and the paths of discovered files extend it. *)
Theorem sources_are_absolute (c : Codec) (prog : string) (args : list string)
    (w : World) :
  Forall (fun x => is_absolute (call_source x) = true)
         (conversions (main c prog args w)).
Proof.
  unfold main.
  destruct (startup prog args w) as [r|[[opts input_path] w']] eqn:Hs.
  { destruct (startup_ends _ _ _ _ Hs) as [-> _]. constructor. }
  destruct (startup_goes_on _ _ _ _ _ _ Hs) as (_ & _ & Hip & _).
  assert (Ha : is_absolute input_path = true)
    by (rewrite Hip; apply absolute_is_absolute).
  assert (Hb : forall files out,
             Forall (fun f => is_absolute f = true) files ->
             Forall (fun x => is_absolute (call_source x) = true)
                    (conversions (run_batch c opts files w' out))).
  { intros files out Hf.
    rewrite (proj1 (run_batch_status c opts files w' out)).
    apply Forall_forall. intros x Hx. rewrite Forall_forall in Hf. apply Hf.
    rewrite <- (proj1 (batch_trace_sources c opts files w')). now apply in_map. }
  unfold main_files. destruct (is_directory w' input_path) eqn:Hd.
  - destruct (find_heic_files_directory w' input_path (recursive opts) Hd)
      as (es & _ & ->).
    set (files := filter _ _).
    assert (Hf : Forall (fun f => is_absolute f = true) files).
    { apply Forall_forall. intros f Hin. unfold files in Hin.
      apply filter_In in Hin. destruct Hin as [Hin _].
      destruct (recursive opts).
      - pose proof (subtree_absolute (Dir es) input_path Ha) as Hall.
        rewrite Forall_forall in Hall. now apply Hall.
      - apply in_map_iff in Hin. destruct Hin as (e & <- & _).
        now apply path_join_absolute. }
    destruct files as [|f fs]; [constructor | now apply Hb].
  - apply Hb. constructor; [exact Ha | constructor].
Qed.



(* ================================================================= *)
(** ** No file is discovered twice *)

Lemma subtree_below (n : node) :
  forall prefix, subtree prefix n = map (descend prefix) (below n).
Proof.
  induction n as [d|es IH] using node_tree_ind; intros prefix; [reflexivity|].
  cbn [subtree below]. induction es as [|[x child] es IHes]; [reflexivity|].
  inversion IH as [|? ? Hc Hes]; subst. cbn [snd] in Hc.
  cbn [flat_map fst snd]. rewrite (IHes Hes), (Hc (path_join prefix x)).
  cbn [map app]. rewrite map_app, map_map. reflexivity.
Qed.

Lemma below_head (es : list (string * node)) (l : list string) :
  In l (below (Dir es)) ->
  exists x child t, In (x, child) es /\ l = x :: t /\ (t = [] \/ In t (below child)).
Proof.
  cbn [below]. intros H. apply in_flat_map in H.
  destruct H as ([x child] & Hin & [<-|H]); cbn [fst snd] in *.
  - exists x, child, []. auto.
  - apply in_map_iff in H. destruct H as (t & <- & Ht).
    exists x, child, t. auto.
Qed.

Lemma distinct_not_in (x : string) (l : list string) :
  existsb (String.eqb x) l = false -> ~ In x l.
Proof.
  intros H Hin. assert (existsb (String.eqb x) l = true); [|congruence].
  apply existsb_exists. exists x. split; [exact Hin | apply String.eqb_refl].
Qed.

(** Under a well-formed node every list of names is non-empty, made of
    valid names, and listed once. *)
Lemma below_wf (n : node) :
  wf_node n = true ->
  NoDup (below n)
  /\ forall l, In l (below n) -> l <> [] /\ Forall (fun x => valid_name x = true) l.
Proof.
  induction n as [d|es IH] using node_tree_ind; intros Hw.
  { split; [constructor | intros l []]. }
  assert (Hval : forall l, In l (below (Dir es)) ->
                           l <> [] /\ Forall (fun x => valid_name x = true) l).
  { intros l Hl. destruct (below_head es l Hl) as (x & child & t & Hin & -> & Ht).
    split; [discriminate|].
    destruct (wf_entry es x child Hw Hin) as (Hv & Hc & _).
    constructor; [exact Hv|]. destruct Ht as [->|Ht]; [constructor|].
    rewrite Forall_forall in IH. specialize (IH _ Hin Hc). now apply IH. }
  split; [|exact Hval].
  clear Hval. cbn [wf_node] in Hw. apply andb_prop in Hw. destruct Hw as [Hd Hf].
  cbn [below]. induction es as [|[x child] es IHes]; [constructor|].
  inversion IH as [|? ? Hc Hes]; subst. cbn [flat_map fst snd].
  cbn [map distinct fst] in Hd. apply andb_prop in Hd. destruct Hd as [Hx Hd].
  cbn [forallb fst snd] in Hf. apply andb_prop in Hf. destruct Hf as [Hfx Hf].
  apply andb_prop in Hfx. destruct Hfx as [_ Hwc]. cbn [snd] in Hc.
  destruct (Hc Hwc) as [Hnd Hne].
  change ([x] :: map (cons x) (below child) ++ flat_map _ es)
    with (([x] :: map (cons x) (below child)) ++
          flat_map (fun e => [fst e] :: map (cons (fst e)) (below (snd e))) es).
  apply NoDup_app.
  - constructor.
    + intros H. apply in_map_iff in H. destruct H as (t & Ht & Hin).
      inversion Ht; subst. now apply (proj1 (Hne [] Hin)).
    + apply NoDup_map_NoDup_ForallPairs; [|exact Hnd].
      intros a b _ _ H. now inversion H.
  - apply (IHes Hes Hd Hf).
  - intros l H1 H2. apply negb_true_iff in Hx. apply (distinct_not_in _ _ Hx).
    destruct (below_head es l H2) as (y & c' & t & Hin & -> & _).
    assert (x = y).
    { destruct H1 as [H1|H1]; [now inversion H1|].
      apply in_map_iff in H1. destruct H1 as (t' & E & _). now inversion E. }
    subst y. now apply (in_map fst) in Hin.
Qed.

Lemma ends_with_slash_append (b : string) : ends_with_slash (b ++ "/") = true.
Proof.
  unfold ends_with_slash.
  change (b ++ "/")%string with (b ++ String slash "")%string.
  now rewrite rsplit_at.
Qed.

(** The components of the path of a node below a directory. *)
Lemma split_descend (dir : path) (names : list string) :
  dir <> "" -> names <> [] ->
  Forall (fun x => valid_name x = true) names ->
  split_slash (descend dir names) = dir_components dir ++ names.
Proof.
  intros Hd. induction names as [|n l IH] using rev_ind; intros Hne Hv;
    [now elim Hne|].
  apply Forall_app in Hv. destruct Hv as [Hl Hn].
  inversion Hn as [|? ? Hvn _]; subst.
  pose proof (valid_name_inv n Hvn) as (_ & _ & _ & Hs).
  rewrite descend_snoc. destruct l as [|m l'].
  - cbn [descend fold_left app].
    destruct (path_join_name dir n Hs) as [[_ E]|[(b & Hb & ->)|(-> & _ & He)]].
    + contradiction.
    + unfold dir_components. rewrite Hb, ends_with_slash_append.
      change (b ++ "/")%string with (b ++ String slash "")%string.
      rewrite !split_slash_app, (split_slash_name n Hs). cbn [split_slash].
      now rewrite removelast_last.
    + unfold dir_components. rewrite He.
      now rewrite split_slash_app, (split_slash_name n Hs).
  - specialize (IH ltac:(discriminate) Hl).
    set (d := descend dir (m :: l')) in *.
    assert (Hlast : exists y, valid_name y = true
                              /\ exists pre, split_slash d = pre ++ [y]).
    { destruct (exists_last (l := m :: l')) as (pre & y & E); [discriminate|].
      exists y. split.
      - rewrite E in Hl. apply Forall_app in Hl. destruct Hl as [_ Hy].
        now inversion Hy.
      - exists (dir_components dir ++ pre). now rewrite IH, E, app_assoc. }
    destruct Hlast as (y & Hy & pre & Hpre).
    apply valid_name_inv in Hy. destruct Hy as (Hy & _).
    destruct (path_join_name d n Hs) as [[_ E]|[(b & Hb & _)|(-> & _ & _)]].
    + rewrite E in Hpre. cbn in Hpre.
      destruct pre as [|? [|? ?]]; inversion Hpre; subst; discriminate.
    + rewrite Hb in Hpre.
      change (b ++ "/")%string with (b ++ String slash "")%string in Hpre.
      rewrite split_slash_app in Hpre. cbn [split_slash] in Hpre.
      apply app_inj_tail in Hpre. destruct Hpre as [_ <-]. discriminate.
    + rewrite split_slash_app, (split_slash_name n Hs), IH.
      now rewrite <- app_assoc.
Qed.

Lemma descend_injective (dir : path) (a b : list string) :
  dir <> "" -> a <> [] -> b <> [] ->
  Forall (fun x => valid_name x = true) a ->
  Forall (fun x => valid_name x = true) b ->
  descend dir a = descend dir b -> a = b.
Proof.
  intros Hd Ha Hb Va Vb H. apply (f_equal split_slash) in H.
  rewrite !split_descend in H by assumption. now apply app_inv_head in H.
Qed.

Lemma distinct_NoDup (l : list string) : distinct l = true -> NoDup l.
Proof.
  induction l as [|x l IH]; intros H; [constructor|].
  cbn in H. apply andb_prop in H. destruct H as [Hx Hd].
  constructor; [|now apply IH].
  apply negb_true_iff in Hx. now apply distinct_not_in.
Qed.

(** X17. No file is discovered twice: on a well-formed file system the
    list that [find_heic_files] returns for a directory has no
    duplicate, with or without the recursive switch, so no file is
    converted twice in one batch. *)
Theorem find_heic_files_no_duplicate (w : World) (dir : path) (recursive : bool)
    (files : list path) :
  wf_node (root w) = true ->
  find_heic_files w dir recursive = Val files ->
  NoDup files.
Proof.
  intros Hw H.
  unfold find_heic_files, recursive_directory_iterator, directory_iterator in H.
  destruct (stat w dir) as [[d|es]|] eqn:Hs;
    try (destruct recursive; discriminate).
  assert (Hdir : dir <> "") by (intros ->; discriminate).
  pose proof (stat_wf w dir _ Hw Hs) as Hwd.
  destruct (below_wf (Dir es) Hwd) as [Hnd Hval].
  assert (Hsub : NoDup (subtree dir (Dir es))).
  { rewrite subtree_below. apply NoDup_map_NoDup_ForallPairs; [|exact Hnd].
    intros a b Ha Hb E.
    destruct (Hval a Ha) as [Ha1 Ha2]. destruct (Hval b Hb) as [Hb1 Hb2].
    now apply (descend_injective dir). }
  destruct recursive; inversion H; subst files; apply NoDup_filter; [exact Hsub|].
  assert (Hes : NoDup es).
  { apply (NoDup_map_inv fst). apply distinct_NoDup.
    cbn [wf_node] in Hwd. now apply andb_prop in Hwd. }
  apply NoDup_map_NoDup_ForallPairs; [|exact Hes].
  intros [x cx] [y cy] Hx Hy E. cbn [fst] in E.
  destruct (wf_entry es x cx Hwd Hx) as (Vx & _ & Ax).
  destruct (wf_entry es y cy Hwd Hy) as (Vy & _ & Ay).
  assert (Exy : [x] = [y]).
  { apply (descend_injective dir); try discriminate; try assumption;
      repeat constructor; assumption. }
  inversion Exy; subst y. rewrite Ax in Ay. now inversion Ay.
Qed.

Lemma find_heic_files_no_duplicate_witness :
  NoDup ["/photos/a.heic"; "/photos/b.HEIF"; "/photos/sub/c.heic"].
Proof.
  exact (find_heic_files_no_duplicate demo_world "/photos" true
           ["/photos/a.heic"; "/photos/b.HEIF"; "/photos/sub/c.heic"] eq_refl eq_refl).
Defined.

(* ================================================================= *)
(** ** format_bytes *)

Lemma substring_all (s : string) :
  forall n, String.length s <= n -> substring 0 n s = s.
Proof.
  induction s as [|a s IH]; intros [|n] H; cbn in *; try reflexivity; try lia.
  now rewrite IH by lia.
Qed.

Lemma decimal_digits_length (fuel : nat) :
  forall n acc,
    String.length (decimal_digits fuel n acc) <= fuel + String.length acc.
Proof.
  induction fuel as [|fuel IH]; intros n acc; cbn [decimal_digits]; [lia|].
  destruct (n / 10 =? 0)%N.
  - cbn [String.length]. lia.
  - specialize (IH (n / 10)%N (String (digit_char (n mod 10)) acc)).
    cbn [String.length] in IH. lia.
Qed.

Lemma snprintf_buf_print_1f (tenths : N) (unit_name : string) :
  String.length unit_name <= 3 ->
  snprintf_buf (print_1f tenths ++ unit_name) = (print_1f tenths ++ unit_name)%string.
Proof.
  intros H. apply substring_all. unfold print_1f, print_zu.
  rewrite !length_append.
  pose proof (decimal_digits_length 20 (tenths / 10) EmptyString) as L.
  cbn [String.length] in *. lia.
Qed.

(** The rounding to tenths is to a nearest tenth. *)
Lemma round_tenths_nearest (num den : N) :
  (0 < den)%N ->
  (2 * den * round_tenths num den <= 20 * num + den
   /\ 20 * num <= 2 * den * round_tenths num den + den)%N.
Proof.
  intros Hd. unfold round_tenths.
  pose proof (N.div_mod (10 * num) den ltac:(lia)) as E.
  pose proof (N.mod_lt (10 * num) den ltac:(lia)) as L.
  set (t := (10 * num / den)%N) in *. set (r := (10 * num mod den)%N) in *.
  destruct (N.ltb_spec (2 * r) den); [nia|].
  destruct (N.ltb_spec den (2 * r)); [nia|].
  destruct (N.even t); nia.
Qed.

Lemma to_double_exact (n : N) : (n < 2 ^ 53)%N -> to_double n = n.
Proof.
  intros H. unfold to_double. now destruct (N.ltb_spec n (2 ^ 53)); [|lia].
Qed.

(** X18. The size shown by [format_bytes] is the nearest tenth of the unit:
    from 1024 bytes to below 1 MiB the text is a number of tenths of a
    KiB, between 1.0 and 1024.0, that differs from the size by at most
    half a tenth of a KiB, followed by [" KB"]; from 1 MiB on (below
    [2^53] bytes, where the conversion to [double] is exact) it is the
    same in MiB, followed by [" MB"].  The 64-byte buffer never cuts the
    text. *)
Theorem format_bytes_nearest_tenth (bytes : N) :
  (1024 <= bytes < 2 ^ 53)%N ->
  exists tenths : N,
    if (bytes <? 1024 * 1024)%N then
      format_bytes bytes = (print_1f tenths ++ " KB")%string
      /\ (10 <= tenths <= 10240)%N
      /\ (2 * 1024 * tenths <= 20 * bytes + 1024)%N
      /\ (20 * bytes <= 2 * 1024 * tenths + 1024)%N
    else
      format_bytes bytes = (print_1f tenths ++ " MB")%string
      /\ (10 <= tenths)%N
      /\ (2 * (1024 * 1024) * tenths <= 20 * bytes + 1024 * 1024)%N
      /\ (20 * bytes <= 2 * (1024 * 1024) * tenths + 1024 * 1024)%N.
Proof.
  intros [Hlo Hhi]. unfold format_bytes.
  destruct (N.ltb_spec bytes 1024); [lia|].
  rewrite (to_double_exact bytes Hhi).
  destruct (N.ltb_spec bytes (1024 * 1024)).
  - exists (round_tenths bytes 1024).
    destruct (round_tenths_nearest bytes 1024 ltac:(lia)) as [A B].
    split; [apply snprintf_buf_print_1f; cbn; lia|]. lia.
  - exists (round_tenths bytes (1024 * 1024)).
    destruct (round_tenths_nearest bytes (1024 * 1024) ltac:(lia)) as [A B].
    split; [apply snprintf_buf_print_1f; cbn; lia|]. lia.
Qed.

Lemma format_bytes_nearest_tenth_witness :
  exists tenths : N,
    format_bytes 1587 = (print_1f tenths ++ " KB")%string
    /\ (10 <= tenths <= 10240)%N
    /\ (2 * 1024 * tenths <= 20 * 1587 + 1024)%N
    /\ (20 * 1587 <= 2 * 1024 * tenths + 1024)%N.
Proof.
  exact (format_bytes_nearest_tenth 1587 ltac:(split; [|reflexivity]; discriminate)).
Defined.

(** X19. The last 51 byte counts below 1 MiB are shown as ["1024.0 KB"]:
    the unit is chosen before the rounding, so the kilobyte figure
    reaches 1024.0 and the text does not change to megabytes. *)
Theorem format_bytes_kilobyte_edge (bytes : N) :
  (1048525 <= bytes < 1048576)%N ->
  format_bytes bytes = "1024.0 KB".
Proof.
  intros [Hlo Hhi]. unfold format_bytes.
  destruct (N.ltb_spec bytes 1024); [lia|].
  destruct (N.ltb_spec bytes (1024 * 1024)); [|lia].
  rewrite (to_double_exact bytes) by (eapply N.lt_trans; [exact Hhi | reflexivity]).
  assert (E : round_tenths bytes 1024 = 10240%N).
  { unfold round_tenths.
    pose proof (N.div_mod (10 * bytes) 1024 ltac:(lia)) as D.
    pose proof (N.mod_lt (10 * bytes) 1024 ltac:(lia)) as L.
    set (t := (10 * bytes / 1024)%N) in *. set (r := (10 * bytes mod 1024)%N) in *.
    assert (t = 10239%N) by lia. subst t.
    destruct (N.ltb_spec (2 * r) 1024); [lia|].
    destruct (N.ltb_spec 1024 (2 * r)); lia. }
  rewrite E. reflexivity.
Qed.

Lemma format_bytes_kilobyte_edge_witness : format_bytes 1048575 = "1024.0 KB".
Proof.
  exact (format_bytes_kilobyte_edge 1048575 ltac:(split; [discriminate | reflexivity])).
Defined.
